(** * izi-drummer: pattern data model and arrangement playback scheduler

    A shallow embedding of [src/main.js]: the drum kit, the grid being
    edited, the pattern library, the song timeline and the tick handler
    that [Tone.Transport.scheduleRepeat] fires every sixteenth note.

    Conventions.
    - Every handler of the program is a function on [state], the record of
      the program's global variables.  Drawing, the sampler and the
      recorder are outside the model; the notes a tick hands to the sampler
      are returned next to the new state.
    - JavaScript numbers that count things (steps, bars, ticks) are [nat];
      the result of [parseInt] is [parsed], an integer or NaN; the step
      accumulator of the scheduler, which can become NaN, is [option nat].
    - A JavaScript string is the [string] of the bytes of its UTF-8
      encoding, which is also how Rocq reads a string literal; [chars]
      splits it into characters. *)

From Stdlib Require Import ZArith Lia Ascii String.
From stdpp Require Import base option list sorting strings pretty gmap.

Local Open Scope string_scope.
Local Open Scope nat_scope.

(** ** JavaScript values and completions *)

(** A grid cell holds the number 0 or 1; a row is an array of cells,
    [list nat], and a pattern an array of rows, [list (list nat)]. *)

(** How a handler ends.  [Throw] is an uncaught [TypeError] (reading a
    property of [undefined]).  [Sparse] marks an assignment past the end of a
    row: JavaScript would extend the array and leave holes, values that rows
    of numbers do not have, so the write is reported, not performed. *)
Inductive completion (A : Type) : Type :=
  | Normal (a : A)
  | Throw
  | Sparse.
Arguments Normal {A} a.
Arguments Throw {A}.
Arguments Sparse {A}.

(** What [patternLibrary[name]] can evaluate to. *)
Inductive js_value : Type :=
  | JUndefined
  | JMatrix (m : list (list nat))      (* a stored pattern *)
  | JRow (r : list nat)        (* one row of an array found on the prototype chain *)
  | JNumber (n : nat)          (* the [length] of such an array *)
  | JObject.                   (* an inherited method, or [Object.prototype] itself *)

Definition truthy (v : js_value) : bool :=
  match v with
  | JUndefined => false
  | JNumber 0 => false
  | _ => true
  end.

(** ** 1. Configuration and state *)

Definition NOTE_POOL : list string :=
  [ "C1"; "D1"; "E1"; "F1"; "F#1"; "G1"; "A1"; "B1";
    "C2"; "D2"; "E2"; "F2"; "F#2"; "G2"; "A2"; "B2";
    "C3"; "D3"; "E3"; "F3"; "F#3"; "G3"; "A3"; "B3" ].

Record drum : Type := Drum { name : string; note : string; color : string }.

Definition initialKit : list drum :=
  [ Drum "Kick" "C1" "#FF9800";
    Drum "Snare" "D1" "#2196F3";
    Drum "Tom 1" "E1" "#3F51B5";
    Drum "Tom 2" "F1" "#3F51B5";
    Drum "Floor Tom" "G1" "#3F51B5";
    Drum "Hi-Hat Cl" "F#1" "#9C27B0";
    Drum "Hi-Hat Op" "A1" "#9C27B0";
    Drum "Crash" "B1" "#E91E63" ].

(** An entry of [songTimeline]: [{ name, startBar }]. *)
Record block : Type := Block { blockName : string; startBar : nat }.

(** [patternLibrary] is the object literal [{}]: its own properties, and a
    prototype.  The prototype is [Object.prototype] ([None]) until an
    assignment to the key [__proto__] replaces it by the assigned array. *)
Record library : Type := Library {
  own : gmap string (list (list nat));
  proto : option (list (list nat))
}.

(** Property names every object inherits from [Object.prototype]. *)
Definition Object_prototype_keys : list string :=
  [ "constructor"; "hasOwnProperty"; "isPrototypeOf"; "propertyIsEnumerable";
    "toLocaleString"; "toString"; "valueOf"; "__proto__";
    "__defineGetter__"; "__defineSetter__"; "__lookupGetter__"; "__lookupSetter__" ].

(** Property names an array inherits from [Array.prototype] (ECMAScript 2023). *)
Definition Array_prototype_keys : list string :=
  [ "at"; "concat"; "copyWithin"; "entries"; "every"; "fill"; "filter"; "find";
    "findIndex"; "findLast"; "findLastIndex"; "flat"; "flatMap"; "forEach";
    "includes"; "indexOf"; "join"; "keys"; "lastIndexOf"; "map"; "pop"; "push";
    "reduce"; "reduceRight"; "reverse"; "shift"; "slice"; "some"; "sort";
    "splice"; "toReversed"; "toSorted"; "toSpliced"; "unshift"; "values"; "with" ].

(** The index an array property name denotes, when it is the canonical
    decimal spelling of an index of [arr]. *)
Definition array_index (arr : list (list nat)) (key : string) : option nat :=
  snd <$> list_find (λ i : nat, pretty i = key) (seq 0 (length arr)).

(** [lib[key]] found on the prototype chain, own properties apart. *)
Definition inherited (lib : library) (key : string) : js_value :=
  match proto lib with
  | Some arr =>
      match array_index arr key with
      | Some i => match arr !! i with Some r => JRow r | None => JUndefined end
      | None =>
          if decide (key = "length") then JNumber (length arr)
          else if decide (key ∈ (Array_prototype_keys ++ Object_prototype_keys)%list)
               then JObject else JUndefined
      end
  | None => if decide (key ∈ Object_prototype_keys) then JObject else JUndefined
  end.

(** [patternLibrary[key]].  [__proto__] is an accessor: reading it yields the
    prototype. *)
Definition lib_get (lib : library) (key : string) : js_value :=
  if decide (key = "__proto__") then
    match proto lib with Some arr => JMatrix arr | None => JObject end
  else
    match own lib !! key with
    | Some m => JMatrix m
    | None => inherited lib key
    end.

(** [patternLibrary[key] = m].  Writing [__proto__] replaces the prototype;
    every other key becomes (or overwrites) an own property. *)
Definition lib_set (lib : library) (key : string) (m : list (list nat)) : library :=
  if decide (key = "__proto__") then Library (own lib) (Some m)
  else Library (<[key := m]> (own lib)) (proto lib).

Inductive transport_state : Type := Started | Stopped.

Record state : Type := State {
  drumKit : list drum;
  currentSteps : nat;
  gridData : list (list nat);
  patternLibrary : library;
  songTimeline : list block;
  currentActivePattern : option string;
  globalStep : nat;
  transport : transport_state      (* Tone.Transport.state *)
}.

Definition set_drumKit (k : list drum) (s : state) : state :=
  State k (currentSteps s) (gridData s) (patternLibrary s) (songTimeline s)
        (currentActivePattern s) (globalStep s) (transport s).
Definition set_currentSteps (n : nat) (s : state) : state :=
  State (drumKit s) n (gridData s) (patternLibrary s) (songTimeline s)
        (currentActivePattern s) (globalStep s) (transport s).
Definition set_gridData (g : list (list nat)) (s : state) : state :=
  State (drumKit s) (currentSteps s) g (patternLibrary s) (songTimeline s)
        (currentActivePattern s) (globalStep s) (transport s).
Definition set_patternLibrary (l : library) (s : state) : state :=
  State (drumKit s) (currentSteps s) (gridData s) l (songTimeline s)
        (currentActivePattern s) (globalStep s) (transport s).
Definition set_songTimeline (t : list block) (s : state) : state :=
  State (drumKit s) (currentSteps s) (gridData s) (patternLibrary s) t
        (currentActivePattern s) (globalStep s) (transport s).
Definition set_currentActivePattern (a : option string) (s : state) : state :=
  State (drumKit s) (currentSteps s) (gridData s) (patternLibrary s) (songTimeline s)
        a (globalStep s) (transport s).
Definition set_globalStep (g : nat) (s : state) : state :=
  State (drumKit s) (currentSteps s) (gridData s) (patternLibrary s) (songTimeline s)
        (currentActivePattern s) g (transport s).
Definition set_transport (t : transport_state) (s : state) : state :=
  State (drumKit s) (currentSteps s) (gridData s) (patternLibrary s) (songTimeline s)
        (currentActivePattern s) (globalStep s) t.

(** [Array(n).fill(0)] *)
Definition zeroRow (n : nat) : list nat := replicate n 0.

(** [resetGridData()] *)
Definition resetGridData (s : state) : state :=
  set_gridData (replicate (length (drumKit s)) (zeroRow (currentSteps s))) s.

(** The state once the module has been evaluated. *)
Definition initialState : state :=
  resetGridData (State initialKit 16 [] (Library ∅ None) [] None 0 Stopped).

(** The failures of the specification.  The program reports them with an
    [alert] or a silent early return and leaves its variables alone. *)
Inductive error : Type :=
  | CapacityExceeded     (* alert("Max drum limit reached!") *)
  | InvalidName          (* alert("Enter a name!") *)
  | NotFound             (* alert("Pattern not found! ...") *)
  | Cancelled.           (* the prompt was dismissed or left empty *)

Inductive reply : Type := Ok | Fail (e : error).

(** ** 2. Drum rack and dynamic kit *)

(** The click handler of [add-piece-button]; [answer] is what [prompt]
    returned, [None] for [null]. *)
Definition addPiece (answer : option string) (s : state) : reply * state :=
  match answer with
  | None | Some "" => (Fail Cancelled, s)
  | Some label =>
      let usedNotes := note <$> drumKit s in
      match list_find (λ n, n ∉ usedNotes) NOTE_POOL with
      | None => (Fail CapacityExceeded, s)
      | Some (_, nextNote) =>
          (Ok, set_gridData (gridData s ++ [zeroRow (currentSteps s)])
                 (set_drumKit (drumKit s ++ [Drum label nextNote "#ffffff"]) s))
      end
  end.

(** ** 3. Grid editor *)

(** [JSON.parse(JSON.stringify(gridData))]: a fresh array of fresh rows
    holding the same numbers. *)
Definition deepCopy (m : list (list nat)) : list (list nat) :=
  (λ r : list nat, (λ c : nat, c) <$> r) <$> m.

(** [if (currentActivePattern)]: the pointer is a non-empty string. *)
Definition activeName (s : state) : option string :=
  match currentActivePattern s with
  | Some "" | None => None
  | Some n => Some n
  end.

Definition saveCurrentToLibrary (s : state) : state :=
  match activeName s with
  | None => s
  | Some n => set_patternLibrary (lib_set (patternLibrary s) n (deepCopy (gridData s))) s
  end.

(** The body of the [map] callback of [adjustGridSize]: a row of
    [newStepCount] zeros into which [forEach] copies the old notes whose
    index fits. *)
Definition resizeRow (newStepCount : nat) (r : list nat) : list nat :=
  foldl (λ newRow '(index, c),
           if (index <? newStepCount)%nat then <[index := c]> newRow else newRow)
        (zeroRow newStepCount) (imap pair r).

Definition adjustGridSize (newStepCount : nat) (s : state) : state :=
  let s1 := set_gridData (resizeRow newStepCount <$> gridData s) s in
  match activeName s1 with
  | Some _ => saveCurrentToLibrary s1
  | None => s1
  end.

(** The result of [parseInt]: NaN or an integer.  (The integer is exact
    here; the guard of the handler cannot tell it from the Number that
    JavaScript rounds it to.) *)
Inductive parsed : Type := NaN | Int (z : Z).

(** A string from a list of byte values. *)
Definition bytes (codes : list nat) : string :=
  foldr (λ n x, String (ascii_of_nat n) x) "" codes.

(** The number of continuation bytes that the first byte of a UTF-8
    character announces. *)
Definition continuationBytes (c : ascii) : nat :=
  let n := nat_of_ascii c in
  if (192 <=? n) && (n <=? 223) then 1
  else if (224 <=? n) && (n <=? 239) then 2
  else if (240 <=? n) && (n <=? 247) then 3
  else 0.

Definition is_continuation (c : ascii) : bool :=
  let n := nat_of_ascii c in (128 <=? n) && (n <=? 191).

(** The characters of [x] after the character [cur], of which [pending]
    continuation bytes are still to come. *)
Fixpoint charsFrom (cur : string) (pending : nat) (x : string) : list string :=
  match x with
  | String c rest =>
      match pending with
      | S p =>
          if is_continuation c then charsFrom (cur ++ String c "") p rest
          else cur :: charsFrom (String c "") (continuationBytes c) rest
      | 0 => cur :: charsFrom (String c "") (continuationBytes c) rest
      end
  | EmptyString => [cur]
  end.

(** The characters of a string, each one the bytes that encode it. *)
Definition chars (x : string) : list string :=
  match x with
  | String c rest => charsFrom (String c "") (continuationBytes c) rest
  | EmptyString => []
  end.

Definition join (l : list string) : string := foldr String.append "" l.

(** WhiteSpace and LineTerminator of ECMAScript, the characters that
    [parseInt] and [String.prototype.trim] strip: U+0009 to U+000D, U+0020,
    U+00A0, U+1680, U+2000 to U+200A, U+2028, U+2029, U+202F, U+205F, U+3000
    and U+FEFF.  The last entry is the byte of U+00A0 in a one-byte
    encoding, which no UTF-8 text has as a character. *)
Definition WhiteSpace : list string :=
  bytes <$> [ [9]; [10]; [11]; [12]; [13]; [32];
              [194; 160];
              [225; 154; 128];
              [226; 128; 128]; [226; 128; 129]; [226; 128; 130]; [226; 128; 131];
              [226; 128; 132]; [226; 128; 133]; [226; 128; 134]; [226; 128; 135];
              [226; 128; 136]; [226; 128; 137]; [226; 128; 138];
              [226; 128; 168]; [226; 128; 169];
              [226; 128; 175];
              [226; 129; 159];
              [227; 128; 128];
              [239; 187; 191];
              [160] ].

Definition is_space (w : string) : bool := bool_decide (w ∈ WhiteSpace).

Fixpoint dropWhile {A : Type} (p : A → bool) (l : list A) : list A :=
  match l with
  | a :: rest => if p a then dropWhile p rest else l
  | [] => []
  end.

(** [String.prototype.trimStart] *)
Definition trimStart (x : string) : string :=
  join (dropWhile is_space (chars x)).

(** The value of [c] as a digit of the given radix. *)
Definition digitValue (radix : Z) (c : ascii) : option Z :=
  let n := Z.of_nat (nat_of_ascii c) in
  let v := if ((48 <=? n) && (n <=? 57))%Z then Some (n - 48)%Z
           else if ((97 <=? n) && (n <=? 122))%Z then Some (n - 87)%Z
           else if ((65 <=? n) && (n <=? 90))%Z then Some (n - 55)%Z
           else None in
  match v with
  | Some d => if (d <? radix)%Z then Some d else None
  | None => None
  end.

(** The number spelled by the longest prefix of digits; [acc] is the number
    read so far, [None] before the first digit. *)
Fixpoint digitsValue (radix : Z) (x : string) (acc : option Z) : option Z :=
  match x with
  | String c rest =>
      match digitValue radix c with
      | Some d => digitsValue radix rest (Some (radix * default 0%Z acc + d)%Z)
      | None => acc
      end
  | EmptyString => acc
  end.

(** [parseInt(x)] without a radix: leading white space, a sign, a [0x]
    prefix, then as many digits as there are; NaN without a digit. *)
Definition parseInt (x : string) : parsed :=
  let x1 := trimStart x in
  let '(sign, x2) :=
    match x1 with
    | String "-" rest => ((-1)%Z, rest)
    | String "+" rest => (1%Z, rest)
    | _ => (1%Z, x1)
    end in
  let '(radix, x3) :=
    match x2 with
    | String "0" (String "x" rest) | String "0" (String "X" rest) => (16%Z, rest)
    | _ => (10%Z, x2)
    end in
  match digitsValue radix x3 None with
  | Some n => Int (sign * n)
  | None => NaN
  end.

(** The [change] handler of the step-count field; [value] is
    [e.target.value]. *)
Definition stepsChange (value : string) (s : state) : state :=
  match parseInt value with
  | Int newSteps =>
      if ((0 <? newSteps) && (newSteps <=? 64))%Z
      then adjustGridSize (Z.to_nat newSteps) (set_currentSteps (Z.to_nat newSteps) s)
      else s
  | NaN => s
  end.

(** The [mousedown] handler of the grid, from the cell coordinates on. *)
Definition toggle (r step : nat) (s : state) : completion state :=
  if ((length (drumKit s) <=? r) || (currentSteps s <=? step))%nat then Normal s
  else
    match gridData s !! r with
    | None => Throw
    | Some cells =>
        match cells !! step with
        | None => Sparse
        | Some c =>
            let c' := if (c =? 1)%nat then 0 else 1 in
            Normal (saveCurrentToLibrary
                      (set_gridData (<[r := <[step := c']> cells]> (gridData s)) s))
        end
    end.

(** The click handler of [clear-button]. *)
Definition clear (s : state) : state :=
  saveCurrentToLibrary (resetGridData s).

(** ** 4. Library system *)

(** [String.prototype.trim] *)
Definition trim (x : string) : string :=
  join (reverse (dropWhile is_space (reverse (dropWhile is_space (chars x))))).

(** The click handler of [save-part-button]; [field] is the value of the
    [part-name] input. *)
Definition saveAs (field : string) (s : state) : reply * state :=
  let n := trim field in
  if decide (n = "") then (Fail InvalidName, s)
  else (Ok, set_currentActivePattern (Some n)
              (set_patternLibrary (lib_set (patternLibrary s) n (deepCopy (gridData s))) s)).

(** [loadPattern(name)].  It is only wired to the buttons that
    [updateLibraryUI] builds from [Object.keys(patternLibrary)], one per own
    property, so the lookup is taken among the own properties. *)
Definition loadPattern (n : string) (s : state) : state :=
  match own (patternLibrary s) !! n with
  | None => s
  | Some savedData =>
      let savedSteps :=
        match savedData !! 0 with Some r0 => length r0 | None => 16 end in
      set_gridData
        (imap (λ index _,
                 match savedData !! index with
                 | Some r => (λ c : nat, c) <$> r
                 | None => zeroRow savedSteps
                 end) (drumKit s))
        (set_currentSteps savedSteps (set_currentActivePattern (Some n) s))
  end.

(** ** 5. Timeline arranger *)

(** Left click on the timeline at [bar]; [field] is the value of the
    [part-name] input. *)
Definition place (bar : nat) (field : string) (s : state) : reply * state :=
  let n := trim field in
  if truthy (lib_get (patternLibrary s) n) then
    (Ok, set_songTimeline
           (filter (λ b, startBar b ≠ bar) (songTimeline s) ++ [Block n bar]) s)
  else (Fail NotFound, s).

(** Right click on the timeline at [bar]: [findIndex] then [splice]. *)
Fixpoint removeFirst (bar : nat) (l : list block) : list block :=
  match l with
  | [] => []
  | b :: rest => if decide (startBar b = bar) then rest else b :: removeFirst bar rest
  end.

Definition remove (bar : nat) (s : state) : state :=
  set_songTimeline (removeFirst bar (songTimeline s)) s.

(** ** 6. Playback engine *)

(** [songTimeline.sort((a, b) => a.startBar - b.startBar)]: the stable sort
    by bar, which [Array.prototype.sort] performs in place. *)
Fixpoint insertBlock (b : block) (l : list block) : list block :=
  match l with
  | [] => [b]
  | c :: rest =>
      if (startBar b <=? startBar c)%nat then b :: l else c :: insertBlock b rest
  end.

Definition sortTimeline (l : list block) : list block := foldr insertBlock [] l.

(** The [for] loop of the tick handler from entry [i] on.  [accumulatedSteps]
    is [None] once it is NaN.  The result is [foundBlock] with [localStep],
    and the final [accumulatedSteps]. *)
Fixpoint findBlock (lib : library) (globalStep : nat) (sortedTimeline : list block)
    (accumulatedSteps : option nat) : completion (option (block * nat) * option nat) :=
  match sortedTimeline with
  | [] => Normal (None, accumulatedSteps)
  | b :: rest =>
      let pattern := lib_get lib (blockName b) in
      if truthy pattern then
        match pattern with
        | JMatrix (r0 :: _) =>
            let patternLength := length r0 in
            match accumulatedSteps with
            | Some acc =>
                if ((acc <=? globalStep) && (globalStep <? acc + patternLength))%nat
                then Normal (Some (b, globalStep - acc), accumulatedSteps)
                else findBlock lib globalStep rest (Some (acc + patternLength))
            | None => findBlock lib globalStep rest None
            end
        | JRow (_ :: _) =>
            (* pattern[0] is a number, whose [length] is undefined *)
            findBlock lib globalStep rest None
        | _ => Throw      (* pattern[0] is undefined *)
        end
      else findBlock lib globalStep rest accumulatedSteps
  end.

(** The notes handed to [kit.triggerAttack] at [localStep]. *)
Definition triggers (kit : list drum) (pattern : list (list nat)) (localStep : nat)
    : list string :=
  omap id (imap (λ r cells,
                   match kit !! r with
                   | Some d => if decide (cells !! localStep = Some 1)
                               then Some (note d) else None
                   | None => None
                   end) pattern).

Definition stopPlayback (s : state) : state :=
  set_globalStep 0 (set_transport Stopped s).

(** The callback of [Tone.Transport.scheduleRepeat]. *)
Definition tick (s : state) : completion (state * list string) :=
  let sortedTimeline := sortTimeline (songTimeline s) in
  let s1 := set_songTimeline sortedTimeline s in
  match findBlock (patternLibrary s) (globalStep s) sortedTimeline (Some 0) with
  | Normal (Some (foundBlock, localStep), _) =>
      match lib_get (patternLibrary s) (blockName foundBlock) with
      | JMatrix pattern =>
          Normal (set_globalStep (S (globalStep s1)) s1,
                  triggers (drumKit s) pattern localStep)
      | _ => Throw        (* not reached, see [findBlock_found] *)
      end
  | Normal (None, accumulatedSteps) =>
      let past := match accumulatedSteps with
                  | Some acc => (acc <=? globalStep s)%nat
                  | None => false
                  end in
      let s2 := if past && (0 <? length sortedTimeline)%nat then stopPlayback s1 else s1 in
      Normal (set_globalStep (S (globalStep s2)) s2, [])
  | Throw => Throw
  | Sparse => Sparse
  end.

(** The click handler of [play-button]. *)
Definition playButton (s : state) : state :=
  match transport s with
  | Started => stopPlayback s
  | Stopped => set_transport Started s
  end.

(** The click handler of [export-button] resets and restarts playback; its
    timer later stops the transport with [Tone.Transport.stop()] and, when
    the song was playing before, starts it again. *)
Definition exportClick (s : state) : state :=
  set_transport Started (stopPlayback s).

Definition exportTimeout (s : state) : state := set_transport Stopped s.

Definition exportResume (s : state) : state := set_transport Started s.

(** One pulse of the transport clock: the callback runs only while the
    transport is started. *)
Definition pulse (s : state) : completion state :=
  match transport s with
  | Stopped => Normal s
  | Started =>
      match tick s with
      | Normal (s', _) => Normal s'
      | Throw => Throw
      | Sparse => Sparse
      end
  end.

Fixpoint pulses (n : nat) (s : state) : completion state :=
  match n with
  | 0 => Normal s
  | S k =>
      match pulse s with
      | Normal s' => pulses k s'
      | Throw => Throw
      | Sparse => Sparse
      end
  end.

(** * Vocabulary of the properties *)

(** A name of white space only, the empty name included. *)
Definition blank (x : string) : bool := forallb is_space (chars x).

(** [addPiece] once per label, with the reply of every call. *)
Fixpoint addPieces (labels : list string) (s : state) : list reply * state :=
  match labels with
  | [] => ([], s)
  | label :: rest =>
      let '(a, s1) := addPiece (Some label) s in
      let '(more, s2) := addPieces rest s1 in
      (a :: more, s2)
  end.

(** The steps a block plays: the length of the first row of its pattern. *)
Definition patternLengthOf (lib : library) (b : block) : nat :=
  match lib_get lib (blockName b) with
  | JMatrix (r0 :: _) => length r0
  | _ => 0
  end.

(** The name of the block resolves to a pattern with a first row. *)
Definition resolves (lib : library) (b : block) : Prop :=
  ∃ r0 rest, lib_get lib (blockName b) = JMatrix (r0 :: rest).

Definition totalSteps (lib : library) (l : list block) : nat :=
  sum_list_with (patternLengthOf lib) l.

Definition sortedByBar (l : list block) : Prop :=
  Sorted (λ a c, startBar a ≤ startBar c) l.

(** The name of the block is an own key of the library or is not found at
    all: the two cases the scheduler was written for. *)
Definition stored_or_absent (lib : library) (b : block) : Prop :=
  lib_get lib (blockName b) = JUndefined ∨ ∃ m, lib_get lib (blockName b) = JMatrix m.

(** A session: 4 steps saved as [A] and placed at bar 0, then saved as [B],
    stretched to 8 steps and placed at bar 10. *)
Definition demoSong : state :=
  snd (place 10 "B"
    (stepsChange "8"
      (snd (saveAs "B"
        (snd (place 0 "A"
          (snd (saveAs "A" (stepsChange "4" initialState))))))))).

(** One user gesture or clock pulse. *)
Inductive step : state → state → Prop :=
  | step_addPiece answer s : step s (snd (addPiece answer s))
  | step_stepsChange value s : step s (stepsChange value s)
  | step_toggle r c s s' : toggle r c s = Normal s' → step s s'
  | step_clear s : step s (clear s)
  | step_saveAs field s : step s (snd (saveAs field s))
  | step_loadPattern n s : step s (loadPattern n s)
  | step_place bar field s : step s (snd (place bar field s))
  | step_remove bar s : step s (remove bar s)
  | step_playButton s : step s (playButton s)
  | step_exportClick s : step s (exportClick s)
  | step_exportTimeout s : step s (exportTimeout s)
  | step_exportResume s : step s (exportResume s)
  | step_pulse s s' : pulse s = Normal s' → step s s'.

Definition reachable (s : state) : Prop := rtc step initialState s.

(** A pattern with at least one row, all rows of one length. *)
Definition pattern_ok (m : list (list nat)) : Prop :=
  0 < length m ∧ ∃ n, Forall (λ r, length r = n) m.

Record wf (s : state) : Prop := {
  wf_kit : 8 ≤ length (drumKit s);
  wf_rows : length (gridData s) = length (drumKit s);
  wf_cols : Forall (λ r, length r = currentSteps s) (gridData s);
  wf_own : ∀ k m, own (patternLibrary s) !! k = Some m → pattern_ok m;
  wf_proto : ∀ m, proto (patternLibrary s) = Some m → pattern_ok m
}.

(** The stored pattern a key stands for: the own property, or the
    prototype for [__proto__]. *)
Definition entry (lib : library) (k : string) : option (list (list nat)) :=
  if decide (k = "__proto__") then proto lib else own lib !! k.

(** Cells are 0 or 1. *)
Definition binary (m : list (list nat)) : Prop := Forall (Forall (λ c, c ≤ 1)) m.

(** Rows of 1 to 64 steps. *)
Definition steps_ok (m : list (list nat)) : Prop := Forall (λ r, 1 ≤ length r ≤ 64) m.

(** What every reachable state satisfies besides [wf]. *)
Record inv (s : state) : Prop := {
  inv_steps : 1 ≤ currentSteps s ≤ 64;
  inv_grid : binary (gridData s);
  inv_entry : ∀ k m, entry (patternLibrary s) k = Some m → binary m ∧ steps_ok m;
  inv_bars : NoDup (startBar <$> songTimeline s);
  inv_notes : NoDup (note <$> drumKit s);
  inv_pool : note <$> drumKit s ⊆ NOTE_POOL;
  inv_active : currentActivePattern s ≠ Some "";
  inv_names : own (patternLibrary s) !! "" = None;
  inv_accessor : own (patternLibrary s) !! "__proto__" = None
}.

(** The [reduce] of the export handler:
    [songTimeline.reduce((max, b) => Math.max(max, b.startBar), 0)]. *)
Definition lastBar (l : list block) : nat :=
  foldl (λ max b, Nat.max max (startBar b)) 0 l.

(** A gesture or tick after which the pattern [k] is not the active one. *)
Definition step_away (k : string) (s s' : state) : Prop :=
  step s s' ∧ activeName s' ≠ Some k.

(** Two results of the scan that differ at most in the bar of the block
    found. *)
Definition same_resolution
    (x y : completion (option (block * nat) * option nat)) : Prop :=
  match x, y with
  | Normal (Some (b1, k1), a1), Normal (Some (b2, k2), a2) =>
      blockName b1 = blockName b2 ∧ k1 = k2 ∧ a1 = a2
  | Normal (None, a1), Normal (None, a2) => a1 = a2
  | Throw, Throw => True
  | Sparse, Sparse => True
  | _, _ => False
  end.

(** * Properties *)

(** ** The library object *)

Lemma deepCopy_id (m : list (list nat)) : deepCopy m = m.
Proof.
  unfold deepCopy. rewrite <- (list_fmap_id m) at 2.
  apply list_fmap_ext. intros _ r _. apply list_fmap_id.
Qed.

Lemma lib_get_set_eq (lib : library) (key : string) (m : list (list nat)) :
  lib_get (lib_set lib key m) key = JMatrix m.
Proof.
  unfold lib_get, lib_set. destruct (decide (key = "__proto__")); simpl.
  - reflexivity.
  - by rewrite lookup_insert_eq.
Qed.

Lemma lib_get_own (lib : library) (key : string) (m : list (list nat)) :
  key ≠ "__proto__" → own lib !! key = Some m → lib_get lib key = JMatrix m.
Proof. intros Hk Hm. unfold lib_get. rewrite decide_False by done. by rewrite Hm. Qed.

(** ** Resizing a row *)

Lemma resizeRow_snoc (n : nat) (r : list nat) (c : nat) :
  resizeRow n (r ++ [c]) =
  if (length r <? n)%nat then <[length r := c]> (resizeRow n r) else resizeRow n r.
Proof.
  unfold resizeRow. rewrite imap_app, foldl_app. simpl.
  by rewrite Nat.add_0_r.
Qed.

Lemma resizeRow_length (n : nat) (r : list nat) : length (resizeRow n r) = n.
Proof.
  induction r as [|c r IH] using rev_ind.
  - apply length_replicate.
  - rewrite resizeRow_snoc. destruct (length r <? n)%nat; [|done].
    by rewrite length_insert.
Qed.

(** Cell [i] of the resized row: the old cell when there was one, zero when
    the old row was shorter, nothing from [n] on. *)
Lemma resizeRow_lookup (n : nat) (r : list nat) (i : nat) :
  resizeRow n r !! i = if (i <? n)%nat then Some (default 0 (r !! i)) else None.
Proof.
  induction r as [|c r IH] using rev_ind.
  - unfold resizeRow, zeroRow. simpl. destruct (Nat.ltb_spec i n).
    + by rewrite lookup_replicate_2.
    + apply lookup_replicate_None. lia.
  - rewrite resizeRow_snoc. destruct (Nat.ltb_spec (length r) n) as [Hlt|Hge].
    + destruct (decide (i = length r)) as [->|Hne].
      * rewrite list_lookup_insert_eq by (rewrite resizeRow_length; lia).
        apply Nat.ltb_lt in Hlt. rewrite Hlt.
        by rewrite list_lookup_middle.
      * rewrite list_lookup_insert_ne by done. rewrite IH.
        destruct (i <? n)%nat; [|done]. f_equal.
        destruct (Nat.lt_ge_cases i (length r)).
        -- by rewrite lookup_app_l.
        -- rewrite (lookup_ge_None_2 r) by done.
           rewrite lookup_ge_None_2; [done|]. rewrite length_app. simpl. lia.
    + rewrite IH. destruct (Nat.ltb_spec i n); [|done]. f_equal.
      by rewrite lookup_app_l by lia.
Qed.

Lemma adjustGridSize_gridData (n : nat) (s : state) :
  gridData (adjustGridSize n s) = resizeRow n <$> gridData s.
Proof.
  unfold adjustGridSize, saveCurrentToLibrary.
  by destruct (activeName _).
Qed.

(** C7.  [adjustGridSize n] keeps, in every row, the cells below
    [min oldLength n] and zeroes the cells from [oldLength] up to [n];
    resizing back to [oldLength] therefore restores exactly the cells below
    [min n oldLength] and leaves zeros in the others. *)
Theorem resize_preservation (s : state) (n r : nat) (cells : list nat) :
  gridData s !! r = Some cells →
  ∃ cells' cells'',
    gridData (adjustGridSize n s) !! r = Some cells' ∧
    length cells' = n ∧
    (∀ i, i < min (length cells) n → cells' !! i = cells !! i) ∧
    (∀ i, length cells ≤ i < n → cells' !! i = Some 0) ∧
    gridData (adjustGridSize (length cells) (adjustGridSize n s)) !! r = Some cells'' ∧
    length cells'' = length cells ∧
    (∀ i, i < min n (length cells) → cells'' !! i = cells !! i) ∧
    (∀ i, min n (length cells) ≤ i < length cells → cells'' !! i = Some 0).
Proof.
  intros Hr. exists (resizeRow n cells), (resizeRow (length cells) (resizeRow n cells)).
  rewrite !adjustGridSize_gridData, !list_lookup_fmap, Hr. simpl.
  repeat split.
  - apply resizeRow_length.
  - intros i Hi. rewrite resizeRow_lookup.
    destruct (Nat.ltb_spec i n); [|lia].
    destruct (lookup_lt_is_Some_2 cells i) as [c Hc]; [lia|]. by rewrite Hc.
  - intros i Hi. rewrite resizeRow_lookup.
    destruct (Nat.ltb_spec i n); [|lia].
    by rewrite lookup_ge_None_2 by lia.
  - apply resizeRow_length.
  - intros i Hi. rewrite !resizeRow_lookup.
    destruct (Nat.ltb_spec i (length cells)); [|lia].
    destruct (Nat.ltb_spec i n); [|lia]. simpl.
    destruct (lookup_lt_is_Some_2 cells i) as [c Hc]; [lia|]. by rewrite Hc.
  - intros i Hi. rewrite !resizeRow_lookup.
    destruct (Nat.ltb_spec i (length cells)); [|lia].
    destruct (Nat.ltb_spec i n); [|done]. simpl.
    by rewrite lookup_ge_None_2 by lia.
Qed.

Lemma resize_preservation_witness :
  ∃ cells' cells'',
    gridData (adjustGridSize 2 (set_gridData [[1; 0; 1; 1]] initialState)) !! 0 = Some cells' ∧
    length cells' = 2 ∧
    (∀ i, i < min (length [1; 0; 1; 1]) 2 → cells' !! i = [1; 0; 1; 1] !! i) ∧
    (∀ i, length [1; 0; 1; 1] ≤ i < 2 → cells' !! i = Some 0) ∧
    gridData (adjustGridSize (length [1; 0; 1; 1])
                (adjustGridSize 2 (set_gridData [[1; 0; 1; 1]] initialState))) !! 0
      = Some cells'' ∧
    length cells'' = length [1; 0; 1; 1] ∧
    (∀ i, i < min 2 (length [1; 0; 1; 1]) → cells'' !! i = [1; 0; 1; 1] !! i) ∧
    (∀ i, min 2 (length [1; 0; 1; 1]) ≤ i < length [1; 0; 1; 1] → cells'' !! i = Some 0).
Proof.
  apply (resize_preservation (set_gridData [[1; 0; 1; 1]] initialState) 2 0 [1; 0; 1; 1]).
  reflexivity.
Defined.

(** ** The step-count field *)

Lemma adjustGridSize_currentSteps (n : nat) (s : state) :
  currentSteps (adjustGridSize n s) = currentSteps s.
Proof.
  unfold adjustGridSize, saveCurrentToLibrary.
  by destruct (activeName _).
Qed.

Lemma stepsChange_accepted (value : string) (z : Z) (s : state) :
  parseInt value = Int z → (1 ≤ z ≤ 64)%Z →
  stepsChange value s = adjustGridSize (Z.to_nat z) (set_currentSteps (Z.to_nat z) s).
Proof.
  intros Hv Hz. unfold stepsChange. rewrite Hv.
  destruct (Z.ltb_spec 0 z); [|lia]. by destruct (Z.leb_spec z 64); [|lia].
Qed.

Lemma stepsChange_rejected (value : string) (s : state) :
  (∀ z, parseInt value = Int z → ¬ (1 ≤ z ≤ 64)%Z) → stepsChange value s = s.
Proof.
  intros Hout. unfold stepsChange. destruct (parseInt value) as [|z]; [done|].
  destruct (Z.ltb_spec 0 z); [|done]. destruct (Z.leb_spec z 64); [|done].
  destruct (Hout z); [done|lia].
Qed.

(** What [parseInt] reads from some fields. *)
Example parseInt_examples :
  parseInt "16" = Int 16 ∧ parseInt " 7" = Int 7 ∧ parseInt "0" = Int 0 ∧
  parseInt "65" = Int 65 ∧ parseInt "-3" = Int (-3) ∧
  parseInt "" = NaN ∧ parseInt "abc" = NaN.
Proof. repeat split. Qed.

(** [parseInt] reads the digits a field starts with, after any white space
    of ECMAScript, and ignores what follows them. *)
Example parseInt_prefix_examples :
  parseInt "64.9" = Int 64 ∧ parseInt "1e3" = Int 1 ∧ parseInt "12 steps" = Int 12 ∧
  parseInt (bytes [194; 160; 55]) = Int 7 ∧
  parseInt (bytes [226; 128; 168; 239; 187; 191; 52; 56]) = Int 48 ∧
  parseInt ".5" = NaN.
Proof. repeat split. Qed.

(** C10, as stated, fails on a field that starts with an integer from 1 to
    64: the field 64.9 asks for a value that is no integer and lies above 64,
    and the field 1e3 asks for 1000, yet the handler applies both, as 64 steps
    and as 1 step, and resizes the grid. *)
Lemma stepsChange_applies_leading_integer :
  currentSteps initialState = 16 ∧
  currentSteps (stepsChange "64.9" initialState) = 64 ∧
  gridData (stepsChange "64.9" initialState) = resizeRow 64 <$> gridData initialState ∧
  currentSteps (stepsChange "1e3" initialState) = 1 ∧
  gridData (stepsChange "1e3" initialState) = resizeRow 1 <$> gridData initialState ∧
  stepsChange "64.9" initialState ≠ initialState ∧
  stepsChange "1e3" initialState ≠ initialState.
Proof.
  vm_compute. repeat split; discriminate.
Qed.

(** C10, as the program has it.  The step count changes exactly when the
    integer [parseInt] reads from the start of the field is from 1 to 64:
    when [parseInt] gives NaN (no digit at the start of the field) or an
    integer outside that range the handler leaves the whole state (step
    count, grid and library) as it was, and for an integer in the range it
    records the count and resizes the grid, whatever follows the digits. *)
Theorem stepsChange_guard (value : string) (s : state) :
  ((∀ z, parseInt value = Int z → ¬ (1 ≤ z ≤ 64)%Z) → stepsChange value s = s) ∧
  (∀ z, parseInt value = Int z → (1 ≤ z ≤ 64)%Z →
     currentSteps (stepsChange value s) = Z.to_nat z ∧
     gridData (stepsChange value s) = resizeRow (Z.to_nat z) <$> gridData s).
Proof.
  split.
  - apply stepsChange_rejected.
  - intros z Hv Hz. rewrite (stepsChange_accepted value z) by done.
    by rewrite adjustGridSize_currentSteps, adjustGridSize_gridData.
Qed.

Lemma stepsChange_guard_witness :
  (stepsChange "65" initialState = initialState ∧
   stepsChange "0" initialState = initialState ∧
   stepsChange "many" initialState = initialState ∧
   stepsChange (bytes [194; 160; 54; 53]) initialState = initialState) ∧
  (currentSteps (stepsChange "7" initialState) = 7 ∧
   gridData (stepsChange "7" initialState) = resizeRow 7 <$> gridData initialState) ∧
  (currentSteps (stepsChange (bytes [194; 160; 55]) initialState) = 7 ∧
   gridData (stepsChange (bytes [194; 160; 55]) initialState)
     = resizeRow 7 <$> gridData initialState).
Proof.
  split; [split; [|split; [|split]]|split].
  - apply (stepsChange_guard "65" initialState).
    intros z Hz. vm_compute in Hz. injection Hz as <-. lia.
  - apply (stepsChange_guard "0" initialState).
    intros z Hz. vm_compute in Hz. injection Hz as <-. lia.
  - apply (stepsChange_guard "many" initialState).
    intros z Hz. vm_compute in Hz. discriminate Hz.
  - apply (stepsChange_guard (bytes [194; 160; 54; 53]) initialState).
    intros z Hz. vm_compute in Hz. injection Hz as <-. lia.
  - apply (proj2 (stepsChange_guard "7" initialState) 7%Z); [reflexivity|lia].
  - apply (proj2 (stepsChange_guard (bytes [194; 160; 55]) initialState) 7%Z);
      [reflexivity|lia].
Defined.

(** ** Names *)

Lemma string_app_empty_r (x : string) : (x ++ "")%string = x.
Proof.
  induction x as [|c x IH]; [done|].
  change (String c (x ++ "")%string = String c x). by rewrite IH.
Qed.

Lemma string_app_snoc (x y : string) (c : ascii) :
  ((x ++ String c "") ++ y)%string = (x ++ String c y)%string.
Proof.
  induction x as [|d x IH]; [done|].
  change (String d ((x ++ String c "") ++ y)%string = String d (x ++ String c y)%string).
  by rewrite IH.
Qed.

Lemma string_app_nonempty (x y : string) : x ≠ "" → (x ++ y)%string ≠ "".
Proof. by destruct x. Qed.

(** The characters of a string are not empty, and in a row they are the
    string. *)
Lemma charsFrom_nonempty (cur : string) (pending : nat) (x : string) :
  cur ≠ "" → Forall (λ w, w ≠ "") (charsFrom cur pending x).
Proof.
  revert cur pending. induction x as [|c x IH]; intros cur pending Hcur; simpl.
  - by constructor.
  - destruct pending as [|p]; [|destruct (is_continuation c)].
    + constructor; [done|]. by apply IH.
    + apply IH. by apply string_app_nonempty.
    + constructor; [done|]. by apply IH.
Qed.

Lemma chars_nonempty (x : string) : Forall (λ w, w ≠ "") (chars x).
Proof. destruct x as [|c x]; [constructor|]. by apply charsFrom_nonempty. Qed.

Lemma join_charsFrom (cur : string) (pending : nat) (x : string) :
  join (charsFrom cur pending x) = (cur ++ x)%string.
Proof.
  revert cur pending. induction x as [|c x IH]; intros cur pending; simpl.
  - unfold join. simpl. by rewrite !string_app_empty_r.
  - destruct pending as [|p]; [|destruct (is_continuation c)].
    + change (join (cur :: ?l)) with (cur ++ join l)%string. by rewrite IH.
    + by rewrite IH, string_app_snoc.
    + change (join (cur :: ?l)) with (cur ++ join l)%string. by rewrite IH.
Qed.

Lemma join_chars (x : string) : join (chars x) = x.
Proof. destruct x as [|c x]; [done|]. simpl. by rewrite join_charsFrom. Qed.

Lemma join_empty (l : list string) :
  Forall (λ w, w ≠ "") l → join l = "" ↔ l = [].
Proof.
  intros Hl. split; [|by intros ->].
  destruct Hl as [|w l Hw _]; [done|].
  change (join (w :: l)) with (w ++ join l)%string. intros H.
  by destruct (string_app_nonempty w (join l) Hw).
Qed.

(** ** Stripping white space *)

Lemma dropWhile_Forall {A : Type} (P : A → Prop) (p : A → bool) (l : list A) :
  Forall P l → Forall P (dropWhile p l).
Proof.
  induction 1 as [|a l Ha Hl IH]; simpl; [done|].
  destruct (p a); [done|by constructor].
Qed.

Lemma dropWhile_nil {A : Type} (p : A → bool) (l : list A) :
  dropWhile p l = [] ↔ forallb p l = true.
Proof.
  induction l as [|a l IH]; simpl; [done|].
  destruct (p a); simpl; [done|]. split; discriminate.
Qed.

Lemma dropWhile_head {A : Type} (p : A → bool) (l : list A) (a : A) :
  head (dropWhile p l) = Some a → p a = false.
Proof.
  induction l as [|b l IH]; simpl; [done|].
  destruct (p b) eqn:Hb; [done|]. simpl. by intros [= <-].
Qed.

Lemma dropWhile_id {A : Type} (p : A → bool) (l : list A) :
  (∀ a, head l = Some a → p a = false) → dropWhile p l = l.
Proof.
  destruct l as [|a l]; simpl; [done|]. intros H. by rewrite (H a).
Qed.

Lemma forallb_reverse {A : Type} (p : A → bool) (l : list A) :
  forallb p (reverse l) = forallb p l.
Proof.
  induction l as [|a l IH]; [done|].
  rewrite reverse_cons, forallb_app, IH. simpl.
  by rewrite andb_true_r, andb_comm.
Qed.

(** [trimStart] leaves nothing exactly of the blank names, and so does
    [trim]. *)
Lemma trimStart_empty (x : string) : trimStart x = "" ↔ blank x = true.
Proof.
  unfold trimStart, blank. rewrite join_empty, dropWhile_nil; [done|].
  apply dropWhile_Forall, chars_nonempty.
Qed.

Lemma trim_empty (x : string) : trim x = "" ↔ blank x = true.
Proof.
  unfold trim, blank. set (l := dropWhile is_space (chars x)).
  assert (Forall (λ w, w ≠ "") l) as Hl.
  { apply dropWhile_Forall, chars_nonempty. }
  rewrite join_empty.
  2:{ by apply Forall_reverse, dropWhile_Forall, Forall_reverse. }
  rewrite <- (dropWhile_nil is_space (chars x)). fold l.
  split.
  - intros H. apply (f_equal reverse) in H. rewrite reverse_involutive in H.
    apply dropWhile_nil in H. rewrite forallb_reverse in H.
    destruct l as [|w l'] eqn:El; [done|].
    assert (is_space w = false) as Hw by (apply (dropWhile_head is_space (chars x)); fold l; by rewrite El).
    simpl in H. by rewrite Hw in H.
  - by intros ->.
Qed.

(** [trim] returns a name whose first and last characters are no white
    space as it is. *)
Lemma trim_trimmed (x : string) :
  (∀ w, head (chars x) = Some w → is_space w = false) →
  (∀ w, last (chars x) = Some w → is_space w = false) →
  trim x = x.
Proof.
  intros Hstart Hend. unfold trim.
  rewrite (dropWhile_id is_space (chars x)) by done.
  rewrite dropWhile_id, reverse_involutive; [apply join_chars|].
  intros w. rewrite head_reverse. apply Hend.
Qed.

(** Every white space character of ECMAScript is blank, and is stripped by
    [trim] on both sides and by [parseInt] in front of the digits; other
    characters are kept, among them U+0085, U+180E and U+200B. *)
Example WhiteSpace_stripped :
  Forall (λ w, blank w = true ∧ trim (w ++ "a b" ++ w) = "a b" ∧
               parseInt (w ++ "12") = Int 12) WhiteSpace.
Proof. repeat constructor. Qed.

Example other_characters_kept :
  Forall (λ w, blank w = false ∧ trim w = w ∧ parseInt (w ++ "12") = NaN)
         (bytes <$> [ [194; 133]; [225; 160; 142]; [226; 128; 139]; [195; 160]; [95] ]).
Proof. repeat constructor. Qed.

(** ** Saving and loading *)

(** C9.  Saving under an empty or blank name (white space only, in the
    sense of [String.prototype.trim]) fails with [InvalidName] and changes
    nothing.  Saving under any other name succeeds: the name is taken
    without the white space around it (as typed, when its first and last
    characters are no white space), the library then answers it with a copy
    of the grid, whatever it held before, and the active pattern pointer is
    that name. *)
Theorem saveAs_spec (field : string) (s : state) :
  (blank field = true → saveAs field s = (Fail InvalidName, s)) ∧
  (blank field = false →
     ∃ s', saveAs field s = (Ok, s') ∧
       lib_get (patternLibrary s') (trim field) = JMatrix (gridData s) ∧
       currentActivePattern s' = Some (trim field) ∧
       gridData s' = gridData s) ∧
  ((∀ w, head (chars field) = Some w → is_space w = false) →
   (∀ w, last (chars field) = Some w → is_space w = false) →
   trim field = field).
Proof.
  unfold saveAs. split; [|split].
  - intros Hb. apply trim_empty in Hb. by rewrite decide_True.
  - intros Hb. rewrite decide_False; [|by rewrite trim_empty, Hb].
    eexists. split; [done|]. simpl.
    by rewrite lib_get_set_eq, deepCopy_id.
  - apply trim_trimmed.
Qed.

Lemma saveAs_spec_witness :
  saveAs (bytes [32; 194; 160; 9]) initialState = (Fail InvalidName, initialState) ∧
  (∃ s', saveAs " Verse" initialState = (Ok, s') ∧
     lib_get (patternLibrary s') (trim " Verse") = JMatrix (gridData initialState) ∧
     currentActivePattern s' = Some (trim " Verse") ∧
     gridData s' = gridData initialState) ∧
  trim "Verse" = "Verse".
Proof.
  split; [|split].
  - apply (proj1 (saveAs_spec (bytes [32; 194; 160; 9]) initialState)). reflexivity.
  - apply (proj1 (proj2 (saveAs_spec " Verse" initialState))). reflexivity.
  - apply (proj2 (proj2 (saveAs_spec "Verse" initialState)));
      intros w Hw; vm_compute in Hw; injection Hw as <-; reflexivity.
Defined.

(** C8.  Loading a stored pattern makes it the active pattern, takes the
    step count from its first row (16 when it has no row), and rebuilds the
    grid with one row per track: the stored row where there is one, a row of
    zeros of the new step count for the tracks added since.  Stored rows
    beyond the last track are not in the grid. *)
Theorem loadPattern_merge (n : string) (s : state) (savedData : list (list nat)) :
  own (patternLibrary s) !! n = Some savedData →
  let steps := match savedData !! 0 with Some r0 => length r0 | None => 16 end in
  currentActivePattern (loadPattern n s) = Some n ∧
  currentSteps (loadPattern n s) = steps ∧
  length (gridData (loadPattern n s)) = length (drumKit s) ∧
  (∀ i r, i < length (drumKit s) → savedData !! i = Some r →
          gridData (loadPattern n s) !! i = Some r) ∧
  (∀ i, length savedData ≤ i < length (drumKit s) →
        gridData (loadPattern n s) !! i = Some (zeroRow steps)).
Proof.
  intros Hn steps. unfold loadPattern. rewrite Hn. simpl. fold steps.
  repeat split.
  - by rewrite length_imap.
  - intros i r Hi Hr. rewrite list_lookup_imap.
    destruct (lookup_lt_is_Some_2 (drumKit s) i Hi) as [d ->]. simpl.
    by rewrite Hr, list_fmap_id.
  - intros i [Hlo Hhi]. rewrite list_lookup_imap.
    destruct (lookup_lt_is_Some_2 (drumKit s) i Hhi) as [d ->]. simpl.
    by rewrite lookup_ge_None_2.
Qed.

Lemma loadPattern_merge_witness :
  let s := snd (addPiece (Some "Cowbell") (snd (saveAs "A" initialState))) in
  let steps := match gridData initialState !! 0 with Some r0 => length r0 | None => 16 end in
  currentActivePattern (loadPattern "A" s) = Some "A" ∧
  currentSteps (loadPattern "A" s) = steps ∧
  length (gridData (loadPattern "A" s)) = length (drumKit s) ∧
  (∀ i r, i < length (drumKit s) → gridData initialState !! i = Some r →
          gridData (loadPattern "A" s) !! i = Some r) ∧
  (∀ i, length (gridData initialState) ≤ i < length (drumKit s) →
        gridData (loadPattern "A" s) !! i = Some (zeroRow steps)).
Proof.
  apply (loadPattern_merge "A"
           (snd (addPiece (Some "Cowbell") (snd (saveAs "A" initialState))))
           (gridData initialState)).
  vm_compute. reflexivity.
Defined.

(** ** Auto-save *)

Lemma saveCurrentToLibrary_get (s : state) (n : string) :
  activeName s = Some n →
  lib_get (patternLibrary (saveCurrentToLibrary s)) n = JMatrix (gridData s) ∧
  gridData (saveCurrentToLibrary s) = gridData s ∧
  activeName (saveCurrentToLibrary s) = Some n.
Proof.
  intros Hn. unfold saveCurrentToLibrary. rewrite Hn. simpl.
  by rewrite lib_get_set_eq, deepCopy_id.
Qed.

(** C3, as the program has it.  While the active pattern pointer holds a
    name, each of the three editing operations that save (a toggle inside the
    grid, an accepted step-count change, and clear) leaves the library entry
    of that name equal to the grid. *)
Theorem autosave_consistency (s : state) (n : string) :
  activeName s = Some n →
  (∀ r step cells c,
     r < length (drumKit s) → step < currentSteps s →
     gridData s !! r = Some cells → cells !! step = Some c →
     ∃ s', toggle r step s = Normal s' ∧
       gridData s' = <[r := <[step := if (c =? 1)%nat then 0 else 1]> cells]> (gridData s) ∧
       lib_get (patternLibrary s') n = JMatrix (gridData s')) ∧
  (∀ value z, parseInt value = Int z → (1 ≤ z ≤ 64)%Z →
     gridData (stepsChange value s) = resizeRow (Z.to_nat z) <$> gridData s ∧
     lib_get (patternLibrary (stepsChange value s)) n
       = JMatrix (gridData (stepsChange value s))) ∧
  (gridData (clear s) = replicate (length (drumKit s)) (zeroRow (currentSteps s)) ∧
   lib_get (patternLibrary (clear s)) n = JMatrix (gridData (clear s))).
Proof.
  intros Hn. split; [|split].
  - intros r step cells c Hr Hstep Hcells Hc. unfold toggle.
    apply Nat.leb_gt in Hr, Hstep. rewrite Hr, Hstep, Hcells, Hc. simpl.
    eexists. split; [done|].
    match goal with |- context [saveCurrentToLibrary ?t] =>
      destruct (saveCurrentToLibrary_get t n Hn) as (Hget & Hgrid & _) end.
    by rewrite Hget, Hgrid.
  - intros value z Hv Hz. rewrite (stepsChange_accepted value z) by done.
    split; [by rewrite adjustGridSize_gridData|].
    unfold adjustGridSize. set (s1 := set_gridData _ _).
    assert (activeName s1 = Some n) as Hs1 by done. rewrite Hs1.
    destruct (saveCurrentToLibrary_get s1 n Hs1) as (Hget & Hg & _).
    by rewrite Hget, Hg.
  - unfold clear.
    assert (activeName (resetGridData s) = Some n) as Hs1 by done.
    destruct (saveCurrentToLibrary_get _ n Hs1) as (Hget & Hg & _).
    by rewrite Hget, Hg.
Qed.

Lemma autosave_consistency_witness :
  let s := snd (saveAs "A" initialState) in
  (∀ r step cells c,
     r < length (drumKit s) → step < currentSteps s →
     gridData s !! r = Some cells → cells !! step = Some c →
     ∃ s', toggle r step s = Normal s' ∧
       gridData s' = <[r := <[step := if (c =? 1)%nat then 0 else 1]> cells]> (gridData s) ∧
       lib_get (patternLibrary s') "A" = JMatrix (gridData s')) ∧
  (∀ value z, parseInt value = Int z → (1 ≤ z ≤ 64)%Z →
     gridData (stepsChange value s) = resizeRow (Z.to_nat z) <$> gridData s ∧
     lib_get (patternLibrary (stepsChange value s)) "A"
       = JMatrix (gridData (stepsChange value s))) ∧
  (gridData (clear s) = replicate (length (drumKit s)) (zeroRow (currentSteps s)) ∧
   lib_get (patternLibrary (clear s)) "A" = JMatrix (gridData (clear s))).
Proof.
  apply (autosave_consistency (snd (saveAs "A" initialState)) "A").
  reflexivity.
Defined.

(** C3, as stated, fails for the row appended when a track is added: the
    handler of [add-piece-button] does not save.  After saving [A] and adding
    a track, [A] is still active, and the library holds its 8 rows while the
    grid has 9. *)
Lemma addPiece_skips_autosave :
  let s := snd (addPiece (Some "Cowbell") (snd (saveAs "A" initialState))) in
  activeName s = Some "A" ∧
  lib_get (patternLibrary s) "A" = JMatrix (replicate 8 (zeroRow 16)) ∧
  gridData s = replicate 9 (zeroRow 16) ∧
  lib_get (patternLibrary s) "A" ≠ JMatrix (gridData s).
Proof.
  vm_compute. repeat split. discriminate.
Qed.

(** ** Adding tracks *)

(** C4, as stated, fails: the initial kit already holds 8 of the 24 notes, so
    of 25 additions from the initial state the first 16 succeed and the 17th
    is already refused. *)
Lemma addPiece_initial_capacity :
  fst (addPieces (replicate 25 "Cowbell") initialState)
  = (replicate 16 Ok ++ replicate 9 (Fail CapacityExceeded))%list.
Proof. vm_compute. reflexivity. Qed.

(** C4, as the program has it.  From the initial state, whose 8 tracks use 8
    notes of the pool, adding tracks succeeds exactly 16 times: the new
    tracks get the 16 remaining notes in the order of the pool, each with a
    row of zeros, and every further addition fails with [CapacityExceeded]
    and leaves the state, kit and grid included, as it was. *)
Theorem addPiece_capacity (labels : list string) :
  length labels = 16 → Forall (λ l, l ≠ "") labels →
  ∃ s, addPieces labels initialState = (replicate 16 Ok, s) ∧
    drumKit s = (initialKit
                 ++ zip_with (λ l n, Drum l n "#ffffff") labels (drop 8 NOTE_POOL))%list ∧
    gridData s = replicate 24 (zeroRow 16) ∧
    ∀ label, label ≠ "" → addPiece (Some label) s = (Fail CapacityExceeded, s).
Proof.
  intros Hlen Hne.
  do 16 (destruct labels as [|[|? ?] labels];
         [discriminate Hlen| by inversion Hne |
          apply Forall_cons in Hne as [_ Hne]]).
  destruct labels; [|discriminate Hlen].
  eexists. split; [vm_compute; reflexivity|].
  split; [reflexivity|]. split; [reflexivity|].
  intros [|? ?] Hl; [done|]. vm_compute. reflexivity.
Qed.

Lemma addPiece_capacity_witness :
  let labels := [ "T1"; "T2"; "T3"; "T4"; "T5"; "T6"; "T7"; "T8";
                  "T9"; "T10"; "T11"; "T12"; "T13"; "T14"; "T15"; "T16" ] in
  ∃ s, addPieces labels initialState = (replicate 16 Ok, s) ∧
    drumKit s = (initialKit
                 ++ zip_with (λ l n, Drum l n "#ffffff") labels (drop 8 NOTE_POOL))%list ∧
    gridData s = replicate 24 (zeroRow 16) ∧
    ∀ label, label ≠ "" → addPiece (Some label) s = (Fail CapacityExceeded, s).
Proof.
  apply (addPiece_capacity
           [ "T1"; "T2"; "T3"; "T4"; "T5"; "T6"; "T7"; "T8";
             "T9"; "T10"; "T11"; "T12"; "T13"; "T14"; "T15"; "T16" ]).
  - reflexivity.
  - repeat constructor; discriminate.
Defined.

(** ** Reachable states *)

Lemma wf_grid_ok (s : state) : wf s → pattern_ok (gridData s).
Proof.
  intros [Hkit Hrows Hcols _ _]. split; [lia|]. by exists (currentSteps s).
Qed.

Lemma wf_lib_set (s : state) (k : string) (m : list (list nat)) :
  wf s → pattern_ok m → wf (set_patternLibrary (lib_set (patternLibrary s) k m) s).
Proof.
  intros [Hkit Hrows Hcols Hown Hproto] Hm.
  split; simpl; try done; unfold lib_set; destruct (decide (k = "__proto__")); simpl.
  - done.
  - intros k' m'. destruct (decide (k = k')) as [->|Hne].
    + rewrite lookup_insert_eq. by intros [= <-].
    + rewrite lookup_insert_ne by done. apply Hown.
  - by intros m' [= <-].
  - done.
Qed.

Lemma wf_saveCurrentToLibrary (s : state) : wf s → wf (saveCurrentToLibrary s).
Proof.
  intros Hwf. unfold saveCurrentToLibrary. destruct (activeName s); [|done].
  apply wf_lib_set; [done|]. rewrite deepCopy_id. by apply wf_grid_ok.
Qed.

Lemma wf_set_gridData (s : state) (g : list (list nat)) :
  wf s → length g = length (drumKit s) → Forall (λ r, length r = currentSteps s) g →
  wf (set_gridData g s).
Proof. intros [Hkit Hrows Hcols Hown Hproto] Hg Hc. by split. Qed.

Lemma wf_addPiece (answer : option string) (s : state) : wf s → wf (snd (addPiece answer s)).
Proof.
  intros Hwf. unfold addPiece. destruct answer as [[|c l]|]; try done.
  destruct (list_find _ _) as [[i nt]|]; [|done]. simpl.
  destruct Hwf as [Hkit Hrows Hcols Hown Hproto]. split; simpl; try done.
  - rewrite length_app. lia.
  - rewrite !length_app, Hrows. done.
  - apply Forall_app. split; [done|]. repeat constructor. apply length_replicate.
Qed.

Lemma wf_adjustGridSize (n : nat) (s : state) :
  wf s → wf (adjustGridSize n (set_currentSteps n s)).
Proof.
  intros [Hkit Hrows Hcols Hown Hproto]. unfold adjustGridSize.
  set (s1 := set_gridData _ _).
  assert (wf s1) as Hs1.
  { split; simpl; try done.
    - by rewrite length_fmap.
    - apply Forall_fmap, Forall_true. intros r. apply resizeRow_length. }
  destruct (activeName s1); [by apply wf_saveCurrentToLibrary|done].
Qed.

Lemma wf_stepsChange (value : string) (s : state) : wf s → wf (stepsChange value s).
Proof.
  intros Hwf. unfold stepsChange. destruct (parseInt value) as [|z]; [done|].
  destruct (_ && _); [by apply wf_adjustGridSize|done].
Qed.

Lemma wf_toggle (r c : nat) (s s' : state) : wf s → toggle r c s = Normal s' → wf s'.
Proof.
  intros Hwf. unfold toggle. destruct (_ || _); [by intros [= <-]|].
  destruct (gridData s !! r) as [cells|] eqn:Hr; [|done].
  destruct (cells !! c) as [v|]; [|done]. intros [= <-].
  apply wf_saveCurrentToLibrary, wf_set_gridData; [done| |].
  - rewrite length_insert. apply Hwf.
  - apply Forall_insert; [apply Hwf|]. rewrite length_insert.
    by eapply (Forall_lookup_1 _ _ _ _ (wf_cols _ Hwf)).
Qed.

Lemma wf_clear (s : state) : wf s → wf (clear s).
Proof.
  intros Hwf. apply wf_saveCurrentToLibrary, wf_set_gridData; [done| |].
  - apply length_replicate.
  - apply Forall_replicate, length_replicate.
Qed.

Lemma wf_saveAs (field : string) (s : state) : wf s → wf (snd (saveAs field s)).
Proof.
  intros Hwf. unfold saveAs. destruct (decide _); [done|]. simpl.
  pose proof (wf_lib_set s (trim field) (deepCopy (gridData s)) Hwf) as H.
  rewrite deepCopy_id in *. specialize (H (wf_grid_ok _ Hwf)).
  destruct H. by split.
Qed.

Lemma wf_loadPattern (n : string) (s : state) : wf s → wf (loadPattern n s).
Proof.
  intros Hwf. unfold loadPattern.
  destruct (own (patternLibrary s) !! n) as [saved|] eqn:Hn; [|done].
  destruct (wf_own _ Hwf _ _ Hn) as [Hlen [k Hk]].
  destruct saved as [|r0 saved]; [simpl in Hlen; lia|]. simpl.
  destruct Hwf as [Hkit Hrows Hcols Hown Hproto]. split; simpl; try done.
  - by rewrite length_imap.
  - apply Forall_lookup_2. intros i r. rewrite list_lookup_imap.
    destruct (drumKit s !! i); [|done]. simpl.
    destruct ((r0 :: saved) !! i) as [ri|] eqn:Hi; intros [= <-].
    + rewrite length_fmap.
      rewrite (Forall_lookup_1 _ _ _ _ Hk Hi).
      by rewrite (Forall_lookup_1 _ _ 0 r0 Hk).
    + apply length_replicate.
Qed.

(** The transport, the timeline and the counter are not part of the
    invariant. *)
Lemma wf_set_transport (t : transport_state) (s : state) : wf s → wf (set_transport t s).
Proof. intros []. by split. Qed.

Lemma wf_set_songTimeline (l : list block) (s : state) : wf s → wf (set_songTimeline l s).
Proof. intros []. by split. Qed.

Lemma wf_set_globalStep (g : nat) (s : state) : wf s → wf (set_globalStep g s).
Proof. intros []. by split. Qed.

Lemma wf_tick (s s' : state) (notes : list string) :
  wf s → tick s = Normal (s', notes) → wf s'.
Proof.
  intros Hwf. unfold tick.
  destruct (findBlock _ _ _ _) as [[[[b l]|] acc]| |]; try done.
  - destruct (lib_get _ _); try done. intros [= <- _].
    by apply wf_set_globalStep, wf_set_songTimeline.
  - intros [= <- _]. apply wf_set_globalStep.
    destruct (_ && _); [apply wf_set_globalStep, wf_set_transport|];
      by apply wf_set_songTimeline.
Qed.

Create HintDb wf.
#[local] Hint Resolve wf_addPiece wf_stepsChange wf_toggle wf_clear wf_saveAs
  wf_loadPattern wf_set_transport wf_set_songTimeline wf_set_globalStep : wf.

Lemma wf_step (s s' : state) : wf s → step s s' → wf s'.
Proof.
  intros Hwf Hstep.
  destruct Hstep as [answer s|v s|r c s s' Ht|s|field s|n s|bar field s|bar s
                    |s|s|s|s|s s' Hp]; eauto with wf.
  - unfold place. destruct (truthy _); simpl; eauto with wf.
  - unfold playButton, stopPlayback. destruct (transport s); eauto with wf.
  - unfold pulse in Hp. destruct (transport s); [|by simplify_eq].
    destruct (tick s) as [[s1 notes]| |] eqn:Ht; simplify_eq.
    by eapply wf_tick.
Qed.

Lemma wf_initialState : wf initialState.
Proof.
  split.
  - simpl. lia.
  - reflexivity.
  - repeat constructor.
  - intros k m. simpl. by rewrite lookup_empty.
  - intros m. by simpl.
Qed.

(** Every reachable state keeps the grid aligned with the kit and stores
    only patterns with a first row. *)
Lemma reachable_wf (s : state) : reachable s → wf s.
Proof.
  unfold reachable. revert s. apply rtc_ind_r.
  - apply wf_initialState.
  - intros s1 s2 _ Hstep IH. by eapply wf_step.
Qed.

(** In a reachable state the grid handler neither throws nor writes past
    the end of a row. *)
Lemma toggle_returns (r c : nat) (s : state) : wf s → ∃ s', toggle r c s = Normal s'.
Proof.
  intros Hwf. unfold toggle.
  destruct (Nat.leb_spec (length (drumKit s)) r) as [|Hr]; simpl; [by eexists|].
  destruct (Nat.leb_spec (currentSteps s) c) as [|Hc]; simpl; [by eexists|].
  rewrite <- (wf_rows _ Hwf) in Hr.
  destruct (lookup_lt_is_Some_2 _ _ Hr) as [cells Hcells]. rewrite Hcells.
  rewrite <- (Forall_lookup_1 _ _ _ _ (wf_cols _ Hwf) Hcells) in Hc.
  destruct (lookup_lt_is_Some_2 _ _ Hc) as [v ->]. by eexists.
Qed.

Lemma inherited_not_matrix (lib : library) (k : string) (m : list (list nat)) :
  inherited lib k ≠ JMatrix m.
Proof.
  unfold inherited. destruct (proto lib) as [arr|].
  - destruct (array_index arr k) as [i|]; [by destruct (arr !! i)|].
    destruct (decide _); [done|]. by destruct (decide _).
  - by destruct (decide _).
Qed.

Lemma wf_lib_get (s : state) (k : string) (m : list (list nat)) :
  wf s → lib_get (patternLibrary s) k = JMatrix m → pattern_ok m.
Proof.
  intros Hwf. unfold lib_get. destruct (decide (k = "__proto__")).
  - destruct (proto (patternLibrary s)) as [arr|] eqn:Hp; [|done].
    intros [= <-]. by eapply wf_proto.
  - destruct (own (patternLibrary s) !! k) as [m'|] eqn:Hk.
    + intros [= <-]. by eapply wf_own.
    + intros H. by apply inherited_not_matrix in H.
Qed.

(** ** The scheduler *)

Lemma sortTimeline_sorted (l : list block) : sortedByBar l → sortTimeline l = l.
Proof.
  induction 1 as [|b l Hl IH Hhd]; [done|].
  simpl. fold (sortTimeline l). rewrite IH.
  destruct Hhd as [|c l' Hbc]; [done|]. simpl.
  apply Nat.leb_le in Hbc. by rewrite Hbc.
Qed.

Section FindBlock.
Context (lib : library) (t : nat).

Lemma totalSteps_app (l1 l2 : list block) :
  totalSteps lib (l1 ++ l2) = totalSteps lib l1 + totalSteps lib l2.
Proof. apply sum_list_with_app. Qed.

(** Blocks whose windows end at or before the tick are passed over, each
    adding its length. *)
Lemma findBlock_skip (pre rest : list block) (acc : nat) :
  Forall (resolves lib) pre → acc + totalSteps lib pre ≤ t →
  findBlock lib t (pre ++ rest) (Some acc)
  = findBlock lib t rest (Some (acc + totalSteps lib pre)).
Proof.
  intros Hres. revert acc.
  induction Hres as [|b pre (r0 & more & Hb) _ IH]; intros acc Hle.
  - unfold totalSteps. simpl. by rewrite Nat.add_0_r.
  - unfold totalSteps in *. simpl in *.
    assert (patternLengthOf lib b = length r0) as Hlen
      by (unfold patternLengthOf; by rewrite Hb).
    rewrite Hlen in *. rewrite Hb. simpl.
    destruct (Nat.ltb_spec t (acc + length r0)); [lia|].
    rewrite andb_false_r, IH by lia. by rewrite Nat.add_assoc.
Qed.

(** The block whose window holds the tick is found. *)
Lemma findBlock_hit (b : block) (post : list block) (acc : nat) :
  resolves lib b → acc ≤ t < acc + patternLengthOf lib b →
  findBlock lib t (b :: post) (Some acc) = Normal (Some (b, t - acc), Some acc).
Proof.
  intros (r0 & more & Hb) [Hlo Hhi]. unfold patternLengthOf in Hhi.
  simpl. rewrite Hb in *. simpl.
  apply Nat.leb_le in Hlo. apply Nat.ltb_lt in Hhi. by rewrite Hlo, Hhi.
Qed.

Lemma findBlock_window (pre post : list block) (b : block) :
  Forall (resolves lib) (pre ++ b :: post) →
  totalSteps lib pre ≤ t < totalSteps lib pre + patternLengthOf lib b →
  findBlock lib t (pre ++ b :: post) (Some 0)
  = Normal (Some (b, t - totalSteps lib pre), Some (totalSteps lib pre)).
Proof.
  intros Hres Hw. apply Forall_app in Hres as [Hpre Hpost].
  apply Forall_cons in Hpost as [Hb _].
  rewrite findBlock_skip by (done || lia). simpl (0 + _).
  by apply findBlock_hit.
Qed.

Lemma findBlock_past (l : list block) :
  Forall (resolves lib) l → totalSteps lib l ≤ t →
  findBlock lib t l (Some 0) = Normal (None, Some (totalSteps lib l)).
Proof.
  intros Hres Hle. rewrite <- (app_nil_r l) at 1.
  by rewrite findBlock_skip.
Qed.

End FindBlock.

(** A tick inside the window of a block plays that block and counts on. *)
Lemma tick_in_window (s : state) (pre post : list block) (b : block) :
  sortTimeline (songTimeline s) = (pre ++ b :: post)%list →
  Forall (resolves (patternLibrary s)) (pre ++ b :: post) →
  totalSteps (patternLibrary s) pre ≤ globalStep s
    < totalSteps (patternLibrary s) pre + patternLengthOf (patternLibrary s) b →
  ∃ pattern, lib_get (patternLibrary s) (blockName b) = JMatrix pattern ∧
    tick s = Normal (set_globalStep (S (globalStep s))
                       (set_songTimeline (pre ++ b :: post) s),
                     triggers (drumKit s) pattern
                       (globalStep s - totalSteps (patternLibrary s) pre)).
Proof.
  intros Hsort Hres Hw. unfold tick. rewrite Hsort, findBlock_window by done.
  apply Forall_app in Hres as [_ Hres]. apply Forall_cons in Hres as [(r0 & more & Hb) _].
  exists (r0 :: more). by rewrite Hb.
Qed.

(** A tick at or past the end of a non-empty arrangement stops the
    transport; the handler then still counts the tick. *)
Lemma tick_past_end (s : state) :
  songTimeline s ≠ [] →
  Forall (resolves (patternLibrary s)) (sortTimeline (songTimeline s)) →
  totalSteps (patternLibrary s) (sortTimeline (songTimeline s)) ≤ globalStep s →
  tick s = Normal (set_globalStep 1 (set_transport Stopped
                     (set_songTimeline (sortTimeline (songTimeline s)) s)), []).
Proof.
  intros Hne Hres Hle. unfold tick. rewrite findBlock_past by done.
  apply Nat.leb_le in Hle. rewrite Hle. simpl.
  destruct (songTimeline s) as [|b l]; [done|].
  assert ((0 <? length (sortTimeline (b :: l))) = true) as ->; [|done].
  simpl. fold (sortTimeline l). by destruct (sortTimeline l) as [|c l']; simpl;
    [|destruct (startBar b <=? startBar c)%nat].
Qed.

(** C1.  With [A] (4 steps) at bar 0 and [B] (8 steps) at bar 10, ticks 0 to
    3 resolve to [A] at steps 0 to 3, ticks 4 to 11 to [B] at steps 0 to 7,
    every tick below 12 leaves the transport as it is, and tick 12 stops it:
    the bars in between take no time.  In general, in a sorted arrangement
    whose names all resolve, the tick inside the window of a block, which
    starts at the summed lengths of the blocks before it, resolves to that
    block at the offset into the window. *)
Theorem scheduler_concatenation :
  (∀ (s : state) (rA rB : list nat) (pA pB : list (list nat)),
     songTimeline s ≡ₚ [Block "A" 0; Block "B" 10] →
     lib_get (patternLibrary s) "A" = JMatrix (rA :: pA) → length rA = 4 →
     lib_get (patternLibrary s) "B" = JMatrix (rB :: pB) → length rB = 8 →
     (∀ t, t < 4 →
        findBlock (patternLibrary s) t (sortTimeline (songTimeline s)) (Some 0)
        = Normal (Some (Block "A" 0, t), Some 0)) ∧
     (∀ t, 4 ≤ t < 12 →
        findBlock (patternLibrary s) t (sortTimeline (songTimeline s)) (Some 0)
        = Normal (Some (Block "B" 10, t - 4), Some 4)) ∧
     (globalStep s < 12 →
        ∃ s' notes, tick s = Normal (s', notes) ∧
          transport s' = transport s ∧ globalStep s' = S (globalStep s)) ∧
     (globalStep s = 12 →
        ∃ s', tick s = Normal (s', []) ∧ transport s' = Stopped)) ∧
  (∀ (lib : library) (tl pre post : list block) (b : block) (t : nat),
     sortedByBar tl → Forall (resolves lib) tl → tl = (pre ++ b :: post)%list →
     totalSteps lib pre ≤ t < totalSteps lib pre + patternLengthOf lib b →
     findBlock lib t (sortTimeline tl) (Some 0)
     = Normal (Some (b, t - totalSteps lib pre), Some (totalSteps lib pre))).
Proof.
  split.
  - intros s rA rB pA pB Hperm HA HrA HB HrB.
    set (a := Block "A" 0). set (b := Block "B" 10).
    assert (sortTimeline (songTimeline s) = [a; b]) as Hsort.
    { symmetry in Hperm.
      apply Permutation_length_2_inv in Hperm as [-> | ->]; reflexivity. }
    assert (songTimeline s ≠ []) as Hne.
    { intros Hnil. rewrite Hnil in Hsort. discriminate. }
    assert (Forall (resolves (patternLibrary s)) [a; b]) as Hres.
    { repeat constructor; [by exists rA, pA | by exists rB, pB]. }
    assert (patternLengthOf (patternLibrary s) a = 4) as HLa
      by (unfold patternLengthOf; simpl; by rewrite HA).
    assert (patternLengthOf (patternLibrary s) b = 8) as HLb
      by (unfold patternLengthOf; simpl; by rewrite HB).
    assert (∀ t, t < 4 →
              findBlock (patternLibrary s) t [a; b] (Some 0)
              = Normal (Some (a, t), Some 0)) as H03.
    { intros t Ht. change [a; b] with ([] ++ a :: [b])%list.
      rewrite findBlock_window; [|done|unfold totalSteps; simpl; lia].
      unfold totalSteps. simpl. by rewrite Nat.sub_0_r. }
    assert (∀ t, 4 ≤ t < 12 →
              findBlock (patternLibrary s) t [a; b] (Some 0)
              = Normal (Some (b, t - 4), Some 4)) as H411.
    { intros t Ht. change [a; b] with ([a] ++ b :: [])%list.
      rewrite findBlock_window; [|done|unfold totalSteps; simpl; lia].
      unfold totalSteps. simpl. by rewrite HLa. }
    rewrite Hsort. split; [done|]. split; [done|]. split.
    + intros Hlt. destruct (Nat.lt_ge_cases (globalStep s) 4) as [H4|H4].
      * destruct (tick_in_window s [] [b] a) as (pattern & _ & ->);
          [done|done|simpl; lia|]. by eexists _, _.
      * destruct (tick_in_window s [a] [] b) as (pattern & _ & ->);
          [done|done|unfold totalSteps; simpl; lia|]. by eexists _, _.
    + intros H12. rewrite tick_past_end; [by eexists| done | by rewrite Hsort |].
      rewrite Hsort. unfold totalSteps. simpl. lia.
  - intros lib tl pre post b t Hsorted Hres -> Hw.
    rewrite sortTimeline_sorted by done. by apply findBlock_window.
Qed.

Lemma scheduler_concatenation_witness :
  ((∀ t, t < 4 →
      findBlock (patternLibrary demoSong) t (sortTimeline (songTimeline demoSong)) (Some 0)
      = Normal (Some (Block "A" 0, t), Some 0)) ∧
   (∀ t, 4 ≤ t < 12 →
      findBlock (patternLibrary demoSong) t (sortTimeline (songTimeline demoSong)) (Some 0)
      = Normal (Some (Block "B" 10, t - 4), Some 4)) ∧
   (globalStep demoSong < 12 →
      ∃ s' notes, tick demoSong = Normal (s', notes) ∧
        transport s' = transport demoSong ∧ globalStep s' = S (globalStep demoSong)) ∧
   (globalStep demoSong = 12 →
      ∃ s', tick demoSong = Normal (s', []) ∧ transport s' = Stopped)) ∧
  findBlock (patternLibrary demoSong) 5 (sortTimeline (songTimeline demoSong)) (Some 0)
  = Normal (Some (Block "B" 10, 5 - totalSteps (patternLibrary demoSong) [Block "A" 0]),
            Some (totalSteps (patternLibrary demoSong) [Block "A" 0])).
Proof.
  split.
  - apply (proj1 scheduler_concatenation demoSong
             (zeroRow 4) (zeroRow 8) (replicate 7 (zeroRow 4)) (replicate 7 (zeroRow 8))).
    + vm_compute. reflexivity.
    + vm_compute. reflexivity.
    + reflexivity.
    + vm_compute. reflexivity.
    + reflexivity.
  - apply (proj2 scheduler_concatenation (patternLibrary demoSong)
             (songTimeline demoSong) [Block "A" 0] [] (Block "B" 10) 5).
    + vm_compute. repeat constructor.
    + vm_compute. repeat constructor; by eexists _, _.
    + vm_compute. reflexivity.
    + vm_compute. lia.
Defined.

(** C6.  With an empty arrangement the running scheduler never stops
    itself: however many pulses fire, every tick returns, the transport is
    still started and the counter has grown by the number of pulses. *)
Theorem empty_arrangement_never_stops (n : nat) (s : state) :
  songTimeline s = [] → transport s = Started →
  ∃ s', pulses n s = Normal s' ∧
    transport s' = Started ∧ globalStep s' = globalStep s + n ∧ songTimeline s' = [].
Proof.
  revert s. induction n as [|n IH]; intros s Hempty Hrun.
  - exists s. rewrite Nat.add_0_r. by simpl.
  - simpl. unfold pulse, tick. rewrite Hrun, Hempty. simpl.
    match goal with |- context [pulses n ?t] =>
      destruct (IH t) as (s' & Hp & Ht & Hg & Hs); [done|done|] end.
    exists s'. rewrite Hp. repeat split; try done.
    rewrite Hg. simpl. lia.
Qed.

Lemma empty_arrangement_never_stops_witness :
  ∃ s', pulses 100 (playButton initialState) = Normal s' ∧
    transport s' = Started ∧
    globalStep s' = globalStep (playButton initialState) + 100 ∧
    songTimeline s' = [].
Proof.
  apply (empty_arrangement_never_stops 100 (playButton initialState)); reflexivity.
Defined.

(** ** Safety of the tick *)

(** An entry whose name is not found is passed over and adds nothing to the
    accumulated steps. *)
Lemma findBlock_absent (lib : library) (t : nat) (b : block) (rest : list block)
    (acc : option nat) :
  lib_get lib (blockName b) = JUndefined →
  findBlock lib t (b :: rest) acc = findBlock lib t rest acc.
Proof. intros Hb. simpl. by rewrite Hb. Qed.

Lemma findBlock_returns (lib : library) (t : nat) (l : list block) (acc : option nat) :
  (∀ k m, lib_get lib k = JMatrix m → m ≠ []) →
  Forall (stored_or_absent lib) l →
  ∃ res, findBlock lib t l acc = Normal res.
Proof.
  intros Hne Hl. revert acc.
  induction Hl as [|b l [Hb|[m Hb]] _ IH]; intros acc.
  - by eexists.
  - rewrite findBlock_absent by done. apply IH.
  - simpl. rewrite Hb. simpl. destruct m as [|r0 m]; [by destruct (Hne _ _ Hb)|].
    destruct acc as [a|]; [|apply IH].
    destruct (_ && _); [by eexists|apply IH].
Qed.

Lemma findBlock_found (lib : library) (t : nat) (l : list block) (acc acc' : option nat)
    (b : block) (localStep : nat) :
  findBlock lib t l acc = Normal (Some (b, localStep), acc') →
  ∃ r0 rest, lib_get lib (blockName b) = JMatrix (r0 :: rest)
             ∧ localStep < length r0.
Proof.
  revert acc. induction l as [|c l IH]; intros acc; simpl; [done|].
  destruct (lib_get lib (blockName c)) as [|[|r0 m]|[|? ?]|[|n]|] eqn:Hc;
    simpl; try done; try apply IH.
  destruct acc as [a|]; [|apply IH].
  destruct (Nat.leb_spec a t); simpl; [|apply IH].
  destruct (Nat.ltb_spec t (a + length r0)); [|apply IH].
  intros [= <- <- _]. exists r0, m. split; [done|lia].
Qed.

Lemma insertBlock_perm (b : block) (l : list block) : insertBlock b l ≡ₚ b :: l.
Proof.
  induction l as [|c l IH]; simpl; [done|].
  destruct (_ <=? _); [done|]. rewrite IH. apply Permutation_swap.
Qed.

Lemma sortTimeline_perm (l : list block) : sortTimeline l ≡ₚ l.
Proof.
  induction l as [|b l IH]; simpl; [done|].
  fold (sortTimeline l). by rewrite insertBlock_perm, IH.
Qed.

(** What C5 asks for holds as long as no block carries an inherited name:
    the tick returns. *)
Lemma tick_returns (s : state) :
  wf s → Forall (stored_or_absent (patternLibrary s)) (songTimeline s) →
  ∃ res, tick s = Normal res.
Proof.
  intros Hwf Hl. unfold tick.
  destruct (findBlock_returns (patternLibrary s) (globalStep s)
              (sortTimeline (songTimeline s)) (Some 0)) as [[[[b l]|] acc] Hres].
  - intros k m Hk. destruct (wf_lib_get _ _ _ Hwf Hk) as [Hlen _].
    intros ->. simpl in Hlen. lia.
  - by rewrite sortTimeline_perm.
  - rewrite Hres. destruct (findBlock_found _ _ _ _ _ _ _ Hres) as (r0 & m & -> & _).
    by eexists.
  - rewrite Hres. by eexists.
Qed.

Lemma tick_returns_reachable (s : state) :
  reachable s → Forall (stored_or_absent (patternLibrary s)) (songTimeline s) →
  ∃ res, tick s = Normal res.
Proof. intros Hs. by apply tick_returns, reachable_wf. Qed.

Lemma pulses_rtc (n : nat) (s s' : state) : pulses n s = Normal s' → rtc step s s'.
Proof.
  revert s. induction n as [|n IH]; intros s; simpl.
  - by intros [= ->].
  - destruct (pulse s) as [s1| |] eqn:Hp; try done.
    intros Hn. eapply rtc_l; [by apply step_pulse|by apply IH].
Qed.

Ltac gesture := eapply rtc_r; [|constructor].

Lemma demoSong_reachable : reachable demoSong.
Proof. unfold reachable, demoSong. do 6 gesture. apply rtc_refl. Qed.

(** C2 at the input where it fails.  The song is played from tick 0; the
    13th pulse is tick 12, past the last block: [stopPlayback] stops the
    transport and resets the counter, and the closing [globalStep++] of the
    handler then leaves the stopped program with the counter at 1.  The stop
    control itself leaves 0. *)
Theorem scheduler_stop_leaves_counter_at_one :
  (∃ s, pulses 13 (playButton demoSong) = Normal s ∧ reachable s ∧
     transport s = Stopped ∧ globalStep s = 1) ∧
  (∃ s, pulses 5 (playButton demoSong) = Normal s ∧
     transport (playButton s) = Stopped ∧ globalStep (playButton s) = 0).
Proof.
  split.
  - destruct (pulses 13 (playButton demoSong)) as [s| |] eqn:Hp;
      [|by vm_compute in Hp..].
    exists s. split; [done|]. split.
    + unfold reachable. etrans; [apply demoSong_reachable|].
      eapply rtc_l; [apply step_playButton|]. by eapply pulses_rtc.
    + vm_compute in Hp. by injection Hp as <-.
  - eexists. split; [vm_compute; reflexivity|split; reflexivity].
Qed.

(** C5 at the input where it fails.  [toString] was never saved, yet
    [patternLibrary["toString"]] is the method every object inherits, a
    truthy value: the click on the timeline places the block, and the first
    tick reads [length] of the method's missing element 0 and throws. *)
Theorem scheduler_throws_on_inherited_name :
  own (patternLibrary initialState) !! "toString" = None ∧
  place 0 "toString" initialState
    = (Ok, set_songTimeline [Block "toString" 0] initialState) ∧
  reachable (playButton (snd (place 0 "toString" initialState))) ∧
  tick (playButton (snd (place 0 "toString" initialState))) = Throw.
Proof.
  split; [|split; [|split]]; try (vm_compute; reflexivity).
  unfold reachable. do 2 gesture. apply rtc_refl.
Qed.

(** * Further properties of the handlers *)

(** ** The timeline *)

Lemma filter_bar_apart (bar : nat) (l : list block) :
  filter (λ b, startBar b = bar) (filter (λ b, startBar b ≠ bar) l) = [].
Proof.
  induction l as [|b l IH]; [done|].
  rewrite (filter_cons (λ b, startBar b ≠ bar)). case_decide; [|done].
  by rewrite filter_cons_False.
Qed.

(** X1.  A successful click on the timeline leaves exactly one block at the
    clicked bar, the one just placed, and the blocks of the other bars as
    they were. *)
Theorem place_unique (bar : nat) (field : string) (s s' : state) :
  place bar field s = (Ok, s') →
  filter (λ b, startBar b = bar) (songTimeline s') = [Block (trim field) bar] ∧
  filter (λ b, startBar b ≠ bar) (songTimeline s')
  = filter (λ b, startBar b ≠ bar) (songTimeline s).
Proof.
  unfold place. destruct (truthy _); [|done]. intros [= <-]. simpl.
  rewrite !filter_app. split.
  - by rewrite filter_bar_apart, filter_cons_True.
  - rewrite filter_cons_False by (simpl; auto). rewrite app_nil_r.
    by apply list_filter_filter_l.
Qed.

Lemma place_unique_witness :
  filter (λ b, startBar b = 10) (songTimeline demoSong) = [Block (trim "B") 10] ∧
  filter (λ b, startBar b ≠ 10) (songTimeline demoSong)
  = filter (λ b, startBar b ≠ 10)
      (songTimeline (stepsChange "8" (snd (saveAs "B" (snd (place 0 "A"
         (snd (saveAs "A" (stepsChange "4" initialState))))))))).
Proof.
  apply (place_unique 10 "B"
           (stepsChange "8" (snd (saveAs "B" (snd (place 0 "A"
              (snd (saveAs "A" (stepsChange "4" initialState))))))))
           demoSong).
  vm_compute. reflexivity.
Defined.

(** X2.  A pattern can be placed as soon as it is saved: after a successful
    save from a field, a click on any bar with the same field succeeds. *)
Theorem place_after_saveAs (bar : nat) (field : string) (s : state) :
  blank field = false →
  ∃ s', place bar field (snd (saveAs field s)) = (Ok, s') ∧
    Block (trim field) bar ∈ songTimeline s'.
Proof.
  intros Hb. unfold saveAs. rewrite decide_False; [|by rewrite trim_empty, Hb].
  unfold place. simpl. rewrite lib_get_set_eq. simpl.
  eexists. split; [done|]. simpl. apply elem_of_app. right. by apply list_elem_of_singleton.
Qed.

Lemma place_after_saveAs_witness :
  let field := bytes [227; 128; 128; 70; 105; 108; 108; 194; 160; 32] in
  trim field = "Fill" ∧
  ∃ s', place 3 field (snd (saveAs field initialState)) = (Ok, s') ∧
    Block (trim field) 3 ∈ songTimeline s'.
Proof.
  split; [reflexivity|].
  apply (place_after_saveAs 3 (bytes [227; 128; 128; 70; 105; 108; 108; 194; 160; 32])
           initialState).
  reflexivity.
Defined.

Lemma filter_bar_all (bar : nat) (l : list block) :
  bar ∉ (startBar <$> l) → filter (λ b, startBar b ≠ bar) l = l.
Proof.
  induction l as [|b l IH]; [done|].
  rewrite fmap_cons, not_elem_of_cons. intros [Hb Hl].
  rewrite filter_cons_True by done. by rewrite IH.
Qed.

Lemma removeFirst_filter (bar : nat) (l : list block) :
  NoDup (startBar <$> l) →
  removeFirst bar l = filter (λ b, startBar b ≠ bar) l.
Proof.
  induction l as [|b l IH]; [done|].
  rewrite fmap_cons, NoDup_cons. intros [Hb Hl]. simpl.
  destruct (decide (startBar b = bar)) as [<-|Hne].
  - rewrite filter_cons_False by auto. by rewrite filter_bar_all.
  - rewrite filter_cons_True by done. by rewrite IH.
Qed.

(** X3.  While no two blocks share a bar (as in every reachable state, see
    [reachable_inv]), a right click removes the block of that bar and keeps
    the others in their order; on a bar without a block it changes
    nothing. *)
Theorem remove_spec (bar : nat) (s : state) :
  NoDup (startBar <$> songTimeline s) →
  (songTimeline (remove bar s) = filter (λ b, startBar b ≠ bar) (songTimeline s)) ∧
  (bar ∉ startBar <$> songTimeline (remove bar s)) ∧
  (bar ∉ (startBar <$> songTimeline s) → remove bar s = s).
Proof.
  intros Hnd. unfold remove. simpl. rewrite removeFirst_filter by done.
  split; [done|]. split.
  - intros Hin. apply list_elem_of_fmap in Hin as (b & -> & Hb).
    by apply list_elem_of_filter in Hb as [Hb _].
  - intros Hout. rewrite filter_bar_all by done. by destruct s.
Qed.

Lemma remove_spec_witness :
  (songTimeline (remove 0 demoSong)
   = filter (λ b, startBar b ≠ 0) (songTimeline demoSong)) ∧
  (0 ∉ startBar <$> songTimeline (remove 0 demoSong)) ∧
  (0 ∉ (startBar <$> songTimeline demoSong) → remove 0 demoSong = demoSong).
Proof.
  apply (remove_spec 0 demoSong). vm_compute.
  repeat constructor; rewrite ?list_elem_of_In; simpl; lia.
Defined.

(** ** The tick and the song data *)

Lemma insertBlock_sorted (b : block) (l : list block) :
  sortedByBar l → sortedByBar (insertBlock b l).
Proof.
  unfold sortedByBar. induction l as [|c l IH]; intros Hl; simpl.
  - by repeat constructor.
  - destruct (Nat.leb_spec (startBar b) (startBar c)) as [Hle|Hlt].
    + constructor; [done|by constructor].
    + apply Sorted_inv in Hl as [Hl Hhd]. constructor; [by apply IH|].
      destruct l as [|d l]; simpl.
      * constructor. lia.
      * apply HdRel_inv in Hhd.
        destruct (startBar b <=? startBar d); constructor; lia.
Qed.

Lemma sortTimeline_is_sorted (l : list block) : sortedByBar (sortTimeline l).
Proof.
  induction l as [|b l IH]; simpl; [constructor|].
  by apply insertBlock_sorted.
Qed.

Lemma tick_frame (s s' : state) (notes : list string) :
  tick s = Normal (s', notes) →
  drumKit s' = drumKit s ∧ currentSteps s' = currentSteps s ∧
  gridData s' = gridData s ∧ patternLibrary s' = patternLibrary s ∧
  currentActivePattern s' = currentActivePattern s ∧
  songTimeline s' = sortTimeline (songTimeline s).
Proof.
  unfold tick.
  destruct (findBlock _ _ _ _) as [[[[b l]|] acc]| |]; try done.
  - destruct (lib_get _ _); try done. by intros [= <- _].
  - intros [= <- _]. by destruct (_ && _).
Qed.

(** X4.  A tick that returns never edits the song: kit, step count, grid,
    library and active pattern pointer are as before, and the timeline
    holds the same blocks, now in the order of their bars. *)
Theorem tick_keeps_song (s s' : state) (notes : list string) :
  tick s = Normal (s', notes) →
  drumKit s' = drumKit s ∧ currentSteps s' = currentSteps s ∧
  gridData s' = gridData s ∧ patternLibrary s' = patternLibrary s ∧
  currentActivePattern s' = currentActivePattern s ∧
  songTimeline s' ≡ₚ songTimeline s ∧ sortedByBar (songTimeline s').
Proof.
  intros Ht. destruct (tick_frame _ _ _ Ht) as (Hk & Hc & Hg & Hl & Ha & Hs).
  rewrite Hs. repeat split; try done.
  - apply sortTimeline_perm.
  - apply sortTimeline_is_sorted.
Qed.

Lemma tick_keeps_song_witness :
  let s := playButton (snd (place 0 "A" (snd (place 10 "B" (snd (saveAs "B"
             (snd (saveAs "A" initialState)))))))) in
  let s' := set_globalStep 1 (set_songTimeline [Block "A" 0; Block "B" 10] s) in
  drumKit s' = drumKit s ∧ currentSteps s' = currentSteps s ∧
  gridData s' = gridData s ∧ patternLibrary s' = patternLibrary s ∧
  currentActivePattern s' = currentActivePattern s ∧
  songTimeline s' ≡ₚ songTimeline s ∧ sortedByBar (songTimeline s').
Proof.
  apply (tick_keeps_song
           (playButton (snd (place 0 "A" (snd (place 10 "B" (snd (saveAs "B"
              (snd (saveAs "A" initialState))))))))) _ []).
  vm_compute. reflexivity.
Defined.

(** ** The length of the playback *)

Lemma totalSteps_perm (lib : library) (l1 l2 : list block) :
  l1 ≡ₚ l2 → totalSteps lib l1 = totalSteps lib l2.
Proof. intros Hp. unfold totalSteps. by rewrite Hp. Qed.

(** Every tick before the end of the song falls into the window of one
    block. *)
Lemma window_exists (lib : library) (l : list block) (k : nat) :
  k < totalSteps lib l →
  ∃ pre b post, l = (pre ++ b :: post)%list ∧
    totalSteps lib pre ≤ k < totalSteps lib pre + patternLengthOf lib b.
Proof.
  revert k. induction l as [|b l IH]; intros k Hk.
  - unfold totalSteps in Hk. simpl in Hk. lia.
  - destruct (Nat.lt_ge_cases k (patternLengthOf lib b)) as [Hlt|Hge].
    + exists [], b, l. split; [done|]. unfold totalSteps. simpl. lia.
    + destruct (IH (k - patternLengthOf lib b)) as (pre & c & post & -> & Hw).
      { unfold totalSteps in *. simpl in Hk. lia. }
      exists (b :: pre), c, post. split; [done|].
      unfold totalSteps in *. simpl. lia.
Qed.

(** One pulse of a running song whose names all resolve: the counter
    advances inside the song, and the pulse at its end stops the
    transport. *)
Lemma pulse_playing (s : state) :
  transport s = Started → songTimeline s ≠ [] →
  Forall (resolves (patternLibrary s)) (songTimeline s) →
  ∃ s', pulse s = Normal s' ∧
    patternLibrary s' = patternLibrary s ∧
    songTimeline s' = sortTimeline (songTimeline s) ∧
    (globalStep s < totalSteps (patternLibrary s) (songTimeline s) →
       transport s' = Started ∧ globalStep s' = S (globalStep s)) ∧
    (totalSteps (patternLibrary s) (songTimeline s) ≤ globalStep s →
       transport s' = Stopped ∧ globalStep s' = 1).
Proof.
  intros Hrun Hne Hres. unfold pulse. rewrite Hrun.
  assert (Forall (resolves (patternLibrary s)) (sortTimeline (songTimeline s))) as Hres'
    by by rewrite sortTimeline_perm.
  rewrite <- (totalSteps_perm _ _ _ (sortTimeline_perm (songTimeline s))).
  destruct (Nat.lt_ge_cases (globalStep s)
              (totalSteps (patternLibrary s) (sortTimeline (songTimeline s)))) as [Hlt|Hge].
  - destruct (window_exists _ _ _ Hlt) as (pre & b & post & Hsplit & Hw).
    rewrite Hsplit in Hres'.
    destruct (tick_in_window s pre post b Hsplit Hres' Hw) as (pattern & _ & ->).
    eexists. split; [done|]. simpl. rewrite Hsplit in Hlt |- *.
    split; [done|]. split; [done|]. split; intros H; [by rewrite Hrun|lia].
  - rewrite tick_past_end by done. eexists. split; [done|]. simpl.
    split; [done|]. split; [done|]. split; intros H; [lia|done].
Qed.

Lemma pulses_playing (n : nat) (s : state) :
  transport s = Started → songTimeline s ≠ [] →
  Forall (resolves (patternLibrary s)) (songTimeline s) →
  globalStep s + n ≤ totalSteps (patternLibrary s) (songTimeline s) →
  ∃ s', pulses n s = Normal s' ∧ transport s' = Started ∧
    globalStep s' = globalStep s + n ∧
    patternLibrary s' = patternLibrary s ∧ songTimeline s' ≡ₚ songTimeline s.
Proof.
  revert s. induction n as [|n IH]; intros s Hrun Hne Hres Hle.
  - exists s. rewrite Nat.add_0_r. by simpl.
  - destruct (pulse_playing s Hrun Hne Hres) as (s1 & Hp & Hlib & Htl & Hin & _).
    destruct Hin as [Hrun1 Hstep1]; [lia|].
    assert (songTimeline s1 ≡ₚ songTimeline s) as Hperm
      by (rewrite Htl; apply sortTimeline_perm).
    destruct (IH s1) as (s' & Hp' & Hrun' & Hstep' & Hlib' & Htl').
    + done.
    + intros Hnil. rewrite Hnil in Hperm. symmetry in Hperm.
      by apply Permutation_nil_r in Hperm.
    + by rewrite Hlib, Hperm.
    + rewrite Hlib, (totalSteps_perm _ _ _ Hperm). lia.
    + exists s'. simpl. rewrite Hp. repeat split; try done.
      * lia.
      * congruence.
      * by rewrite Htl'.
Qed.

Lemma pulses_snoc (n : nat) (s s1 : state) :
  pulses n s = Normal s1 → pulses (S n) s = pulse s1.
Proof.
  revert s. induction n as [|n IH]; intros s; simpl.
  - intros [= ->]. by destruct (pulse s1).
  - destruct (pulse s) as [s2| |]; try done. intros Hn. by apply IH in Hn.
Qed.

(** X5.  A song played from tick 0 lasts as many ticks as its patterns have
    steps: while no more pulses have fired than the summed lengths of the
    placed patterns the transport is started and the counter is the number
    of pulses, and the next pulse stops the transport.  Bars do not enter. *)
Theorem playback_length (s : state) :
  transport s = Started → globalStep s = 0 → songTimeline s ≠ [] →
  Forall (resolves (patternLibrary s)) (songTimeline s) →
  (∀ n, n ≤ totalSteps (patternLibrary s) (songTimeline s) →
     ∃ s', pulses n s = Normal s' ∧ transport s' = Started ∧ globalStep s' = n) ∧
  (∃ s', pulses (S (totalSteps (patternLibrary s) (songTimeline s))) s = Normal s' ∧
     transport s' = Stopped).
Proof.
  intros Hrun H0 Hne Hres. split.
  - intros n Hn. destruct (pulses_playing n s) as (s' & Hp & Hr & Hg & _);
      [done|done|done|lia|]. exists s'. repeat split; try done. lia.
  - destruct (pulses_playing (totalSteps (patternLibrary s) (songTimeline s)) s)
      as (s1 & Hp & Hr & Hg & Hlib & Hperm); [done|done|done|lia|].
    rewrite (pulses_snoc _ _ _ Hp).
    destruct (pulse_playing s1) as (s' & Hp' & _ & _ & _ & Hout).
    + done.
    + intros Hnil. rewrite Hnil in Hperm. symmetry in Hperm.
      by apply Permutation_nil_r in Hperm.
    + by rewrite Hlib, Hperm.
    + exists s'. split; [done|]. apply Hout.
      rewrite Hlib, (totalSteps_perm _ _ _ Hperm). lia.
Qed.

Lemma playback_length_witness :
  let s := playButton demoSong in
  (∀ n, n ≤ totalSteps (patternLibrary s) (songTimeline s) →
     ∃ s', pulses n s = Normal s' ∧ transport s' = Started ∧ globalStep s' = n) ∧
  (∃ s', pulses (S (totalSteps (patternLibrary s) (songTimeline s))) s = Normal s' ∧
     transport s' = Stopped).
Proof.
  apply (playback_length (playButton demoSong)).
  - reflexivity.
  - reflexivity.
  - vm_compute. discriminate.
  - vm_compute. repeat constructor; by eexists _, _.
Defined.

(** ** What every reachable state satisfies *)

Lemma entry_lib_set (lib : library) (k k' : string) (m : list (list nat)) :
  entry (lib_set lib k m) k' = if decide (k' = k) then Some m else entry lib k'.
Proof.
  unfold entry, lib_set.
  destruct (decide (k' = k)) as [Heq|Hne];
    destruct (decide (k = "__proto__")) as [Hk|Hk]; simpl;
    destruct (decide (k' = "__proto__")) as [Hk'|Hk']; simpl;
    try done; try congruence.
  - subst k'. by rewrite lookup_insert_eq.
  - by rewrite lookup_insert_ne.
Qed.

Lemma lib_get_entry (lib : library) (k : string) (m : list (list nat)) :
  lib_get lib k = JMatrix m ↔ entry lib k = Some m.
Proof.
  unfold lib_get, entry. destruct (decide (k = "__proto__")).
  - destruct (proto lib); split; intros H; by simplify_eq.
  - destruct (own lib !! k); split; intros H; simplify_eq; try done.
    by apply inherited_not_matrix in H.
Qed.

Lemma resizeRow_binary (n : nat) (r : list nat) :
  Forall (λ c, c ≤ 1) r → Forall (λ c, c ≤ 1) (resizeRow n r).
Proof.
  intros Hr. apply Forall_lookup_2. intros i c. rewrite resizeRow_lookup.
  destruct (i <? n); [|done]. intros [= <-].
  destruct (r !! i) as [c|] eqn:Hi; simpl; [|lia].
  by eapply (Forall_lookup_1 _ _ _ _ Hr).
Qed.

Lemma zeroRow_binary (n : nat) : Forall (λ c, c ≤ 1) (zeroRow n).
Proof. apply Forall_replicate. lia. Qed.

Lemma inv_lib_set (s : state) (k : string) (m : list (list nat)) :
  inv s → k ≠ "" → binary m → steps_ok m →
  inv (set_patternLibrary (lib_set (patternLibrary s) k m) s).
Proof.
  intros [Hst Hg He Hbar Hn Hp Ha Hnm Hacc] Hk Hb Hs. split; simpl; try done.
  - intros k' m'. rewrite entry_lib_set. case_decide; [by intros [= <-]|apply He].
  - unfold lib_set. destruct (decide _); simpl; [done|].
    by rewrite lookup_insert_ne.
  - unfold lib_set. destruct (decide _); simpl; [done|].
    by rewrite lookup_insert_ne.
Qed.

Lemma activeName_nonempty (s : state) (n : string) : activeName s = Some n → n ≠ "".
Proof.
  unfold activeName. destruct (currentActivePattern s) as [[|c x]|]; try done.
  by intros [= <-].
Qed.

Lemma grid_steps_ok (s : state) : wf s → inv s → steps_ok (gridData s).
Proof.
  intros Hwf Hinv. eapply Forall_impl; [apply (wf_cols _ Hwf)|].
  intros r ->. apply Hinv.
Qed.

Lemma inv_saveCurrentToLibrary (s : state) :
  inv s → steps_ok (gridData s) → inv (saveCurrentToLibrary s).
Proof.
  intros Hinv Hs. unfold saveCurrentToLibrary.
  destruct (activeName s) as [n|] eqn:Hn; [|done].
  rewrite deepCopy_id. apply inv_lib_set; try done.
  - by eapply activeName_nonempty.
  - apply Hinv.
Qed.

Lemma inv_set_gridData (s : state) (g : list (list nat)) :
  inv s → binary g → inv (set_gridData g s).
Proof. intros [] Hg. by split. Qed.

Lemma inv_addPiece (answer : option string) (s : state) :
  inv s → inv (snd (addPiece answer s)).
Proof.
  intros Hinv. unfold addPiece. destruct answer as [[|c l]|]; try done.
  destruct (list_find _ _) as [[i nt]|] eqn:Hfind; [|done]. simpl.
  apply list_find_Some in Hfind as (Hi & Hnew & _).
  destruct Hinv. split; simpl; try done.
  - apply Forall_app. split; [done|]. repeat constructor. apply zeroRow_binary.
  - rewrite fmap_app. apply NoDup_app. split; [done|]. split.
    + intros x Hx Hx'. apply list_elem_of_singleton in Hx'. by subst.
    + apply NoDup_singleton.
  - rewrite fmap_app. intros x Hx. apply elem_of_app in Hx as [Hx|Hx]; [auto|].
    apply list_elem_of_singleton in Hx as ->. by eapply list_elem_of_lookup_2.
Qed.

Lemma inv_stepsChange (value : string) (s : state) :
  inv s → inv (stepsChange value s).
Proof.
  intros Hinv. unfold stepsChange. destruct (parseInt value) as [|z]; [done|].
  destruct (Z.ltb_spec 0 z); [|done]. destruct (Z.leb_spec z 64); [|done]. simpl.
  unfold adjustGridSize. set (s1 := set_gridData _ _).
  assert (inv s1) as Hs1.
  { destruct Hinv. split; simpl; try done; [lia|].
    apply Forall_fmap. eapply Forall_impl; [done|]. apply resizeRow_binary. }
  destruct (activeName s1); [|done].
  apply inv_saveCurrentToLibrary; [done|]. simpl.
  apply Forall_fmap, Forall_true. intros r. simpl. rewrite resizeRow_length. lia.
Qed.

Lemma inv_toggle (r c : nat) (s s' : state) :
  wf s → inv s → toggle r c s = Normal s' → inv s'.
Proof.
  intros Hwf Hinv. unfold toggle. destruct (_ || _); [by intros [= <-]|].
  destruct (gridData s !! r) as [cells|] eqn:Hr; [|done].
  destruct (cells !! c) as [v|]; [|done]. intros [= <-].
  pose proof (Forall_lookup_1 _ _ _ _ (inv_grid _ Hinv) Hr) as Hcells.
  pose proof (Forall_lookup_1 _ _ _ _ (grid_steps_ok _ Hwf Hinv) Hr) as Hlen.
  apply inv_saveCurrentToLibrary.
  - apply inv_set_gridData; [done|].
    apply Forall_insert; [apply Hinv|].
    apply Forall_insert; [done|]. destruct (v =? 1); lia.
  - simpl. apply Forall_insert; [by apply grid_steps_ok|].
    by rewrite length_insert.
Qed.

Lemma inv_clear (s : state) : inv s → inv (clear s).
Proof.
  intros Hinv. unfold clear, resetGridData. apply inv_saveCurrentToLibrary.
  - apply inv_set_gridData; [done|]. apply Forall_replicate, zeroRow_binary.
  - simpl. apply Forall_replicate. unfold zeroRow. rewrite length_replicate.
    apply Hinv.
Qed.

Lemma inv_saveAs (field : string) (s : state) :
  wf s → inv s → inv (snd (saveAs field s)).
Proof.
  intros Hwf Hinv. unfold saveAs. destruct (decide _) as [|Hne]; [done|]. simpl.
  pose proof (inv_lib_set s (trim field) (deepCopy (gridData s)) Hinv Hne) as H.
  rewrite deepCopy_id in *.
  destruct (H (inv_grid _ Hinv) (grid_steps_ok _ Hwf Hinv)).
  split; simpl; try done. by intros [= ?].
Qed.

Lemma inv_loadPattern (n : string) (s : state) :
  wf s → inv s → inv (loadPattern n s).
Proof.
  intros Hwf Hinv. unfold loadPattern.
  destruct (own (patternLibrary s) !! n) as [saved|] eqn:Hn; [|done].
  assert (n ≠ "") as Hne by (intros ->; by rewrite (inv_names _ Hinv) in Hn).
  assert (n ≠ "__proto__" → binary saved ∧ steps_ok saved) as Hsaved.
  { intros Hp. apply (inv_entry _ Hinv n). unfold entry. by rewrite decide_False. }
  assert (n ≠ "__proto__") as Hp
    by (intros ->; by rewrite (inv_accessor _ Hinv) in Hn).
  destruct (wf_own _ Hwf _ _ Hn) as [Hlen _].
  destruct (Hsaved Hp) as [Hb Hs].
  destruct saved as [|r0 saved]; [simpl in Hlen; lia|]. simpl.
  destruct Hinv as [Hst Hg He Hbar Hnd Hpool Ha Hnm Hacc]. split; simpl; try done.
  - by apply Forall_cons in Hs as [Hs _].
  - apply Forall_lookup_2. intros i r. rewrite list_lookup_imap.
    destruct (drumKit s !! i); [|done]. simpl.
    destruct ((r0 :: saved) !! i) as [ri|] eqn:Hi; intros [= <-].
    + rewrite list_fmap_id. by eapply (Forall_lookup_1 _ _ _ _ Hb).
    + apply zeroRow_binary.
  - by intros [= ?].
Qed.

Lemma inv_set_songTimeline (l : list block) (s : state) :
  inv s → NoDup (startBar <$> l) → inv (set_songTimeline l s).
Proof. intros [] Hl. by split. Qed.

Lemma inv_set_transport (t : transport_state) (s : state) : inv s → inv (set_transport t s).
Proof. intros []. by split. Qed.

Lemma inv_set_globalStep (g : nat) (s : state) : inv s → inv (set_globalStep g s).
Proof. intros []. by split. Qed.

Lemma inv_place (bar : nat) (field : string) (s : state) :
  inv s → inv (snd (place bar field s)).
Proof.
  intros Hinv. unfold place. destruct (truthy _); [|done]. simpl.
  apply inv_set_songTimeline; [done|].
  rewrite fmap_app. apply NoDup_app. split; [|split].
  - eapply sublist_NoDup; [apply (inv_bars _ Hinv)|apply fmap_sublist, sublist_filter].
  - intros x Hx Hx'. apply list_elem_of_singleton in Hx'. subst x.
    apply list_elem_of_fmap in Hx as (b & Hb & Hin).
    by apply list_elem_of_filter in Hin as [Hin _].
  - apply NoDup_singleton.
Qed.

Lemma removeFirst_sublist (bar : nat) (l : list block) : removeFirst bar l `sublist_of` l.
Proof.
  induction l as [|b l IH]; simpl; [done|].
  destruct (decide _); [by apply sublist_cons|by apply sublist_skip].
Qed.

Lemma inv_remove (bar : nat) (s : state) : inv s → inv (remove bar s).
Proof.
  intros Hinv. apply inv_set_songTimeline; [done|].
  eapply sublist_NoDup; [apply (inv_bars _ Hinv)|apply fmap_sublist, removeFirst_sublist].
Qed.

Lemma inv_tick (s s' : state) (notes : list string) :
  inv s → tick s = Normal (s', notes) → inv s'.
Proof.
  intros Hinv Ht. destruct (tick_frame _ _ _ Ht) as (Hk & Hc & Hg & Hl & Ha & Hs).
  destruct Hinv as [Hst Hgr He Hbar Hnd Hpool Hact Hnm Hacc].
  split; rewrite ?Hk, ?Hc, ?Hg, ?Hl, ?Ha, ?Hs; try done.
  by rewrite sortTimeline_perm.
Qed.

Lemma inv_step (s s' : state) : wf s → inv s → step s s' → inv s'.
Proof.
  intros Hwf Hinv Hstep.
  destruct Hstep as [answer s|value s|r c s s' Ht|s|field s|n s|bar field s|bar s
                    |s|s|s|s|s s' Hp].
  - by apply inv_addPiece.
  - by apply inv_stepsChange.
  - by eapply inv_toggle.
  - by apply inv_clear.
  - by apply inv_saveAs.
  - by apply inv_loadPattern.
  - by apply inv_place.
  - by apply inv_remove.
  - unfold playButton, stopPlayback. destruct (transport s);
      [apply inv_set_globalStep|]; by apply inv_set_transport.
  - by apply inv_set_transport, inv_set_globalStep, inv_set_transport.
  - by apply inv_set_transport.
  - by apply inv_set_transport.
  - unfold pulse in Hp. destruct (transport s); [|by simplify_eq].
    destruct (tick s) as [[s1 notes]| |] eqn:Ht; simplify_eq.
    by eapply inv_tick.
Qed.

Lemma inv_initialState : inv initialState.
Proof.
  split.
  - simpl. lia.
  - repeat constructor.
  - intros k m. unfold entry. simpl. destruct (decide _); [done|].
    by rewrite lookup_empty.
  - constructor.
  - apply (bool_decide_unpack (NoDup (note <$> drumKit initialState))).
    by vm_compute.
  - intros x Hx. simpl in Hx.
    repeat (apply elem_of_cons in Hx as [->|Hx];
            [apply list_elem_of_In; simpl; tauto|]).
    by apply elem_of_nil in Hx.
  - done.
  - done.
  - done.
Qed.

Lemma reachable_inv (s : state) : reachable s → wf s ∧ inv s.
Proof.
  unfold reachable. revert s. apply rtc_ind_r.
  - split; [apply wf_initialState|apply inv_initialState].
  - intros s1 s2 _ Hstep [Hwf Hinv]. split; [by eapply wf_step|by eapply inv_step].
Qed.

Lemma NOTE_POOL_NoDup : NoDup NOTE_POOL.
Proof. apply (bool_decide_unpack (NoDup NOTE_POOL)). by vm_compute. Qed.

(** The pool is exhausted exactly when the kit has as many tracks as the
    pool has notes. *)
Lemma pool_exhausted (notes : list string) :
  NoDup notes → notes ⊆ NOTE_POOL →
  length notes ≤ 24 ∧
  (list_find (λ n, n ∉ notes) NOTE_POOL = None ↔ length notes = 24).
Proof.
  intros Hnd Hsub.
  assert (notes ⊆+ NOTE_POOL) as Hms by by apply NoDup_submseteq.
  pose proof (submseteq_length _ _ Hms) as Hlen. simpl in Hlen.
  split; [done|]. rewrite list_find_None. split.
  - intros Hall.
    assert (NOTE_POOL ⊆+ notes) as Hms'.
    { apply NoDup_submseteq; [apply NOTE_POOL_NoDup|].
      intros x Hx. destruct (decide (x ∈ notes)); [done|].
      rewrite Forall_forall in Hall. by destruct (Hall x Hx). }
    apply submseteq_length in Hms'. simpl in Hms'. lia.
  - intros H24. apply Forall_forall. intros x Hx Hout. apply Hout.
    assert (notes ≡ₚ NOTE_POOL) as Hp
      by (apply submseteq_length_Permutation; [done|simpl; lia]).
    by rewrite Hp.
Qed.

(** X6.  In every reachable state the tracks have pairwise different notes,
    all from the pool, so there are at least the 8 initial and at most 24
    tracks; and adding a track (with a label) is refused with
    [CapacityExceeded] exactly when there are 24. *)
Theorem kit_capacity (s : state) (label : string) :
  reachable s → label ≠ "" →
  NoDup (note <$> drumKit s) ∧ note <$> drumKit s ⊆ NOTE_POOL ∧
  8 ≤ length (drumKit s) ≤ 24 ∧
  (fst (addPiece (Some label) s) = Fail CapacityExceeded ↔ length (drumKit s) = 24) ∧
  (fst (addPiece (Some label) s) = Ok ↔ length (drumKit s) < 24).
Proof.
  intros Hs Hl. destruct (reachable_inv s Hs) as [Hwf Hinv].
  destruct (pool_exhausted _ (inv_notes _ Hinv) (inv_pool _ Hinv)) as [Hlen Hiff].
  rewrite length_fmap in Hlen, Hiff.
  split; [apply Hinv|]. split; [apply Hinv|].
  split; [split; [apply Hwf|done]|].
  unfold addPiece. destruct label as [|c l]; [done|].
  destruct (list_find _ _) as [[i nt]|] eqn:Hfind; simpl.
  - assert (length (drumKit s) ≠ 24) as Hne by (intros H; by apply Hiff in H).
    split; split; try done. lia.
  - assert (length (drumKit s) = 24) as H24 by by apply Hiff.
    split; split; try done. lia.
Qed.

Lemma kit_capacity_witness :
  NoDup (note <$> drumKit demoSong) ∧ note <$> drumKit demoSong ⊆ NOTE_POOL ∧
  8 ≤ length (drumKit demoSong) ≤ 24 ∧
  (fst (addPiece (Some "Cowbell") demoSong) = Fail CapacityExceeded
   ↔ length (drumKit demoSong) = 24) ∧
  (fst (addPiece (Some "Cowbell") demoSong) = Ok ↔ length (drumKit demoSong) < 24).
Proof.
  apply (kit_capacity demoSong "Cowbell").
  - unfold reachable, demoSong. do 6 (eapply rtc_r; [|constructor]). apply rtc_refl.
  - discriminate.
Defined.

(** X7.  In every reachable state the grid has one row per track, every row
    has the current number of steps, that number is between 1 and 64, every
    cell is 0 or 1, and a click on the grid, wherever it lands, returns
    without an exception. *)
Theorem grid_shape (s : state) (r c : nat) :
  reachable s →
  length (gridData s) = length (drumKit s) ∧
  Forall (λ cells, length cells = currentSteps s) (gridData s) ∧
  1 ≤ currentSteps s ≤ 64 ∧
  binary (gridData s) ∧
  ∃ s', toggle r c s = Normal s'.
Proof.
  intros Hs. destruct (reachable_inv s Hs) as [Hwf Hinv].
  split; [apply Hwf|]. split; [apply Hwf|]. split; [apply Hinv|].
  split; [apply Hinv|]. by apply toggle_returns.
Qed.

Lemma grid_shape_witness :
  length (gridData demoSong) = length (drumKit demoSong) ∧
  Forall (λ cells, length cells = currentSteps demoSong) (gridData demoSong) ∧
  1 ≤ currentSteps demoSong ≤ 64 ∧
  binary (gridData demoSong) ∧
  ∃ s', toggle 2 5 demoSong = Normal s'.
Proof.
  apply (grid_shape demoSong 2 5).
  unfold reachable, demoSong. do 6 (eapply rtc_r; [|constructor]). apply rtc_refl.
Defined.

(** X8.  In every reachable state a stored pattern has at least one row, rows
    of one length between 1 and 64 and cells that are 0 or 1, and nothing is
    stored under the empty name: every stored pattern plays for 1 to 64
    ticks. *)
Theorem library_shape (s : state) (k : string) (m : list (list nat)) :
  reachable s → lib_get (patternLibrary s) k = JMatrix m →
  k ≠ "" ∧ binary m ∧
  (∃ n, 1 ≤ n ≤ 64 ∧ Forall (λ cells, length cells = n) m) ∧
  ∀ bar, 1 ≤ patternLengthOf (patternLibrary s) (Block k bar) ≤ 64.
Proof.
  intros Hs Hk. destruct (reachable_inv s Hs) as [Hwf Hinv].
  destruct (wf_lib_get _ _ _ Hwf Hk) as [Hlen [n Hn]].
  pose proof (proj1 (lib_get_entry _ _ _) Hk) as He.
  destruct (inv_entry _ Hinv _ _ He) as [Hb Hst].
  destruct m as [|r0 m]; [simpl in Hlen; lia|].
  assert (1 ≤ length r0 ≤ 64) as Hr0 by by apply Forall_cons in Hst as [? _].
  split; [|split; [done|split]].
  - intros ->. unfold entry in He. simpl in He.
    by rewrite (inv_names _ Hinv) in He.
  - exists n. split; [|done]. by apply Forall_cons in Hn as [<- _].
  - intros bar. unfold patternLengthOf. simpl. by rewrite Hk.
Qed.

Lemma library_shape_witness :
  "B" ≠ "" ∧ binary (replicate 8 (zeroRow 8)) ∧
  (∃ n, 1 ≤ n ≤ 64 ∧ Forall (λ cells, length cells = n) (replicate 8 (zeroRow 8))) ∧
  ∀ bar, 1 ≤ patternLengthOf (patternLibrary demoSong) (Block "B" bar) ≤ 64.
Proof.
  apply (library_shape demoSong "B" (replicate 8 (zeroRow 8))).
  - unfold reachable, demoSong. do 6 (eapply rtc_r; [|constructor]). apply rtc_refl.
  - vm_compute. reflexivity.
Defined.

(** X9.  In every reachable state no two blocks of the timeline share a
    bar. *)
Theorem timeline_bars_unique (s : state) :
  reachable s → NoDup (startBar <$> songTimeline s).
Proof. intros Hs. destruct (reachable_inv s Hs) as [_ Hinv]. apply Hinv. Qed.

Lemma timeline_bars_unique_witness : NoDup (startBar <$> songTimeline demoSong).
Proof.
  apply (timeline_bars_unique demoSong).
  unfold reachable, demoSong. do 6 (eapply rtc_r; [|constructor]). apply rtc_refl.
Defined.

(** ** Editing the grid *)

Lemma saveCurrentToLibrary_frame (s : state) :
  drumKit (saveCurrentToLibrary s) = drumKit s ∧
  currentSteps (saveCurrentToLibrary s) = currentSteps s ∧
  gridData (saveCurrentToLibrary s) = gridData s ∧
  currentActivePattern (saveCurrentToLibrary s) = currentActivePattern s.
Proof. unfold saveCurrentToLibrary. by destruct (activeName s). Qed.

(** X10.  A second click on the same cell undoes the first: when the cells
    are 0 or 1, two toggles in a row at the same place return, and leave the
    grid as it was before the first. *)
Theorem toggle_twice (r step : nat) (s s1 : state) :
  binary (gridData s) → toggle r step s = Normal s1 →
  ∃ s2, toggle r step s1 = Normal s2 ∧ gridData s2 = gridData s.
Proof.
  intros Hbin. unfold toggle at 1.
  destruct (_ || _) eqn:Hout.
  - intros [= <-]. exists s. unfold toggle. by rewrite Hout.
  - destruct (gridData s !! r) as [cells|] eqn:Hr; [|done].
    destruct (cells !! step) as [c|] eqn:Hc; [|done]. intros [= <-].
    assert (c ≤ 1) as Hc1.
    { eapply (Forall_lookup_1 _ _ _ _ (Forall_lookup_1 _ _ _ _ Hbin Hr)). done. }
    unfold toggle.
    destruct (saveCurrentToLibrary_frame
                (set_gridData (<[r:=<[step:=if c =? 1 then 0 else 1]> cells]> (gridData s)) s))
      as (-> & -> & -> & _).
    simpl. rewrite Hout.
    rewrite list_lookup_insert_eq by by eapply lookup_lt_Some.
    rewrite list_lookup_insert_eq by by eapply lookup_lt_Some.
    eexists. split; [done|].
    destruct (saveCurrentToLibrary_frame
                (set_gridData
                   (<[r:=<[step:=if (if c =? 1 then 0 else 1) =? 1 then 0 else 1]>
                           (<[step:=if c =? 1 then 0 else 1]> cells)]>
                      (<[r:=<[step:=if c =? 1 then 0 else 1]> cells]> (gridData s)))
                   (saveCurrentToLibrary
                      (set_gridData (<[r:=<[step:=if c =? 1 then 0 else 1]> cells]> (gridData s)) s))))
      as (_ & _ & -> & _).
    simpl. rewrite !list_insert_insert_eq.
    assert ((if (if c =? 1 then 0 else 1) =? 1 then 0 else 1) = c) as ->.
    { destruct c as [|[|c]]; [done|done|lia]. }
    by rewrite (list_insert_id cells), list_insert_id.
Qed.

Lemma toggle_twice_witness :
  ∃ s2, toggle 2 5 (saveCurrentToLibrary
                      (set_gridData (<[2:=<[5:=1]> (zeroRow 8)]> (gridData demoSong)) demoSong))
        = Normal s2 ∧ gridData s2 = gridData demoSong.
Proof.
  apply (toggle_twice 2 5 demoSong).
  - vm_compute. repeat constructor.
  - vm_compute. reflexivity.
Defined.

(** ** What a tick plays *)

(** The notes of a step: those of the tracks, among the rows of the
    pattern, whose cell at that step is 1. *)
Lemma triggers_elem (kit : list drum) (pattern : list (list nat)) (localStep : nat)
    (n : string) :
  n ∈ triggers kit pattern localStep ↔
  ∃ r d cells, kit !! r = Some d ∧ pattern !! r = Some cells ∧
    cells !! localStep = Some 1 ∧ note d = n.
Proof.
  unfold triggers. rewrite list_elem_of_omap. split.
  - intros (o & Ho & Hn). simpl in Hn. subst o.
    apply list_elem_of_lookup in Ho as [r Hr].
    rewrite list_lookup_imap in Hr.
    destruct (pattern !! r) as [cells|] eqn:Hp; [|done]. simpl in Hr.
    destruct (kit !! r) as [d|] eqn:Hd; [|done].
    destruct (decide _) as [Hc|]; [|done]. injection Hr as <-.
    by exists r, d, cells.
  - intros (r & d & cells & Hd & Hp & Hc & <-).
    exists (Some (note d)). split; [|done].
    apply list_elem_of_lookup. exists r.
    rewrite list_lookup_imap, Hp. simpl. rewrite Hd. by rewrite decide_True.
Qed.

(** The notes of a step come in the order of the tracks, one per track at
    most. *)
Lemma triggers_sublist_from (kit : list drum) (pattern : list (list nat))
    (localStep k : nat) :
  omap id (imap (λ r cells,
                   match kit !! (k + r) with
                   | Some d => if decide (cells !! localStep = Some 1)
                               then Some (note d) else None
                   | None => None
                   end) pattern)
  `sublist_of` (note <$> drop k kit).
Proof.
  revert k. induction pattern as [|cells pattern IH]; intros k.
  - apply sublist_nil_l.
  - rewrite imap_cons.
    rewrite (imap_ext _ (λ r cells0,
               match kit !! (S k + r) with
               | Some d => if decide (cells0 !! localStep = Some 1)
                           then Some (note d) else None
               | None => None
               end) pattern)
      by (intros i x _; simpl; by rewrite Nat.add_succ_r).
    specialize (IH (S k)). rewrite Nat.add_0_r.
    destruct (kit !! k) as [d|] eqn:Hd.
    + rewrite (drop_S kit d k Hd). rewrite fmap_cons.
      destruct (decide _); simpl; [by apply sublist_skip|by apply sublist_cons].
    + simpl. apply lookup_ge_None in Hd.
      rewrite drop_ge in IH by lia. by rewrite drop_ge by lia.
Qed.

Lemma triggers_sublist (kit : list drum) (pattern : list (list nat)) (localStep : nat) :
  triggers kit pattern localStep `sublist_of` (note <$> kit).
Proof. apply (triggers_sublist_from kit pattern localStep 0). Qed.

(** X11.  A tick plays the step under the play head and nothing else.  The
    notes it hands to the sampler follow the order of the tracks, one per
    track at most.  When the tick falls into the window of a block, which
    starts at the summed lengths of the blocks before it in bar order, the
    notes are exactly those of the tracks whose cell is 1 at the offset of
    the tick into that window, in the stored pattern of that block.  When
    the tick is at or past the end of the arrangement, nothing is handed to
    the sampler. *)
Theorem tick_triggers_exact (s s' : state) (notes : list string) :
  tick s = Normal (s', notes) →
  notes `sublist_of` (note <$> drumKit s) ∧
  (∀ pre b post pattern,
     sortTimeline (songTimeline s) = (pre ++ b :: post)%list →
     Forall (resolves (patternLibrary s)) pre →
     lib_get (patternLibrary s) (blockName b) = JMatrix pattern →
     totalSteps (patternLibrary s) pre ≤ globalStep s
       < totalSteps (patternLibrary s) pre + patternLengthOf (patternLibrary s) b →
     ∀ n, n ∈ notes ↔
          ∃ r d cells, drumKit s !! r = Some d ∧ pattern !! r = Some cells ∧
            cells !! (globalStep s - totalSteps (patternLibrary s) pre) = Some 1 ∧
            note d = n) ∧
  (Forall (resolves (patternLibrary s)) (songTimeline s) →
   totalSteps (patternLibrary s) (songTimeline s) ≤ globalStep s →
   notes = []).
Proof.
  intros Htick.
  assert (∀ pre b post pattern,
            sortTimeline (songTimeline s) = (pre ++ b :: post)%list →
            Forall (resolves (patternLibrary s)) pre →
            lib_get (patternLibrary s) (blockName b) = JMatrix pattern →
            totalSteps (patternLibrary s) pre ≤ globalStep s
              < totalSteps (patternLibrary s) pre + patternLengthOf (patternLibrary s) b →
            notes = triggers (drumKit s) pattern
                      (globalStep s - totalSteps (patternLibrary s) pre)) as Hwin.
  { intros pre b post pattern Hsort Hpre Hb Hw.
    assert (resolves (patternLibrary s) b) as Hres.
    { unfold patternLengthOf in Hw. rewrite Hb in Hw.
      destruct pattern as [|r0 more]; [lia|]. by exists r0, more. }
    unfold tick in Htick. rewrite Hsort in Htick.
    rewrite findBlock_skip in Htick by (done || lia). simpl (0 + _) in Htick.
    rewrite findBlock_hit in Htick by done. rewrite Hb in Htick.
    by injection Htick as _ <-. }
  assert (Forall (resolves (patternLibrary s)) (songTimeline s) →
          totalSteps (patternLibrary s) (songTimeline s) ≤ globalStep s →
          notes = []) as Hpast.
  { intros Hres Hle. unfold tick in Htick.
    rewrite findBlock_past in Htick.
    - by injection Htick as _ <-.
    - by rewrite sortTimeline_perm.
    - by rewrite (totalSteps_perm _ _ _ (sortTimeline_perm (songTimeline s))). }
  split; [|split; [|done]].
  - unfold tick in Htick.
    destruct (findBlock _ _ _ _) as [[[[b localStep]|] acc]| |]; try done.
    + destruct (lib_get _ _); try done. injection Htick as _ <-.
      apply triggers_sublist.
    + injection Htick as _ <-. apply sublist_nil_l.
  - intros pre b post pattern Hsort Hpre Hb Hw n.
    rewrite (Hwin pre b post pattern) by done. apply triggers_elem.
Qed.

Lemma tick_triggers_exact_witness :
  let s := set_globalStep 6 (playButton (snd (place 3 "B" (snd (saveAs "B"
             (set_gridData [[1; 0; 0]; [0; 1; 1]; [0; 0; 1]]
                (snd (place 0 "A" (snd (saveAs "A"
                   (set_gridData [[1; 0; 1; 0]; [0; 1; 0; 0]] initialState))))))))))) in
  tick s = Normal (set_globalStep 7 s, [ "D1"; "E1" ]) ∧
  [ "D1"; "E1" ] `sublist_of` (note <$> drumKit s) ∧
  (∀ n, n ∈ [ "D1"; "E1" ] ↔
        ∃ r d cells, drumKit s !! r = Some d ∧
          [[1; 0; 0]; [0; 1; 1]; [0; 0; 1]] !! r = Some cells ∧
          cells !! 2 = Some 1 ∧ note d = n).
Proof.
  intros s.
  assert (tick s = Normal (set_globalStep 7 s, [ "D1"; "E1" ])) as Htick
    by (vm_compute; reflexivity).
  split; [exact Htick|]. split.
  - exact (proj1 (tick_triggers_exact s _ _ Htick)).
  - refine (proj1 (proj2 (tick_triggers_exact s _ _ Htick))
              [Block "A" 0] (Block "B" 3) [] [[1; 0; 0]; [0; 1; 1]; [0; 0; 1]] _ _ _ _).
    + vm_compute. reflexivity.
    + constructor; [|constructor]. eexists _, _. vm_compute. reflexivity.
    + vm_compute. reflexivity.
    + vm_compute. lia.
Defined.

(** ** The library over time *)

Lemma activeName_saveCurrentToLibrary (s : state) :
  activeName (saveCurrentToLibrary s) = activeName s.
Proof. unfold saveCurrentToLibrary. by destruct (activeName s) eqn:Hn. Qed.

Lemma entry_saveCurrentToLibrary (s : state) (k : string) (m : list (list nat)) :
  entry (patternLibrary s) k = Some m →
  ∃ m', entry (patternLibrary (saveCurrentToLibrary s)) k = Some m' ∧
    (m' = m ∨ activeName (saveCurrentToLibrary s) = Some k).
Proof.
  intros Hk. rewrite activeName_saveCurrentToLibrary.
  unfold saveCurrentToLibrary. destruct (activeName s) as [n|] eqn:Hn.
  - simpl. rewrite entry_lib_set. case_decide as Hkn.
    + subst. eexists. split; [done|]. by right.
    + exists m. split; [done|]. by left.
  - exists m. split; [done|]. by left.
Qed.

Lemma entry_step (s s' : state) (k : string) (m : list (list nat)) :
  step s s' → entry (patternLibrary s) k = Some m →
  ∃ m', entry (patternLibrary s') k = Some m' ∧ (m' = m ∨ activeName s' = Some k).
Proof.
  intros Hstep Hk.
  assert (∀ t, patternLibrary t = patternLibrary s →
            ∃ m', entry (patternLibrary t) k = Some m' ∧ (m' = m ∨ activeName t = Some k))
    as Hsame by (intros t ->; exists m; split; [done|by left]).
  destruct Hstep as [answer s|value s|r c s s' Ht|s|field s|n s|bar field s|bar s
                    |s|s|s|s|s s' Hp].
  - apply Hsame. unfold addPiece. destruct answer as [[|? ?]|]; try done.
    by destruct (list_find _ _) as [[? ?]|].
  - unfold stepsChange. destruct (parseInt value) as [|z]; [by apply Hsame|].
    destruct (_ && _); [|by apply Hsame].
    unfold adjustGridSize. set (s1 := set_gridData _ _).
    destruct (activeName s1); [|by apply Hsame].
    by apply (entry_saveCurrentToLibrary s1).
  - unfold toggle in Ht. destruct (_ || _); [apply Hsame; by simplify_eq|].
    destruct (gridData s !! r) as [cells|]; [|done].
    destruct (cells !! c) as [v|]; [|done]. injection Ht as <-.
    by apply (entry_saveCurrentToLibrary (set_gridData _ s)).
  - by apply (entry_saveCurrentToLibrary (resetGridData s)).
  - unfold saveAs. destruct (decide (trim field = "")) as [|Hne]; [by apply Hsame|].
    simpl. rewrite entry_lib_set. case_decide as Hkn.
    + subst k. eexists. split; [done|]. right. unfold activeName. simpl.
      by destruct (trim field).
    + exists m. split; [done|]. by left.
  - apply Hsame. unfold loadPattern. by destruct (own _ !! n).
  - apply Hsame. unfold place. by destruct (truthy _).
  - by apply Hsame.
  - apply Hsame. unfold playButton. by destruct (transport s).
  - by apply Hsame.
  - by apply Hsame.
  - by apply Hsame.
  - apply Hsame. unfold pulse in Hp. destruct (transport s); [|by simplify_eq].
    destruct (tick s) as [[s1 notes]| |] eqn:Ht; simplify_eq.
    by destruct (tick_frame _ _ _ Ht) as (_ & _ & _ & -> & _).
Qed.

(** X12.  No gesture and no tick deletes a stored pattern, and the only
    pattern one of them can change is the one that is active afterwards:
    the library still answers every other stored name with the same
    pattern. *)
Theorem library_frame (s s' : state) (k : string) (m : list (list nat)) :
  step s s' → lib_get (patternLibrary s) k = JMatrix m →
  ∃ m', lib_get (patternLibrary s') k = JMatrix m' ∧
    (activeName s' ≠ Some k → m' = m).
Proof.
  intros Hstep Hk. apply lib_get_entry in Hk.
  destruct (entry_step _ _ _ _ Hstep Hk) as (m' & Hk' & Hm).
  exists m'. split; [by apply lib_get_entry|]. by destruct Hm.
Qed.

Lemma library_frame_witness :
  let s := snd (saveAs "B" (snd (place 0 "A"
             (snd (saveAs "A" (stepsChange "4" initialState)))))) in
  ∃ m', lib_get (patternLibrary (stepsChange "8" s)) "A" = JMatrix m' ∧
    (activeName (stepsChange "8" s) ≠ Some "A" → m' = replicate 8 (zeroRow 4)).
Proof.
  apply (library_frame
           (snd (saveAs "B" (snd (place 0 "A"
              (snd (saveAs "A" (stepsChange "4" initialState)))))))
           _ "A").
  - apply step_stepsChange.
  - vm_compute. reflexivity.
Defined.

(** ** Resizing again *)

Lemma resizeRow_resizeRow (n m : nat) (r : list nat) :
  m ≤ n → resizeRow m (resizeRow n r) = resizeRow m r.
Proof.
  intros Hmn. apply list_eq. intros i. rewrite !resizeRow_lookup.
  destruct (Nat.ltb_spec i m); [|done].
  destruct (Nat.ltb_spec i n); [done|lia].
Qed.

Lemma resizeRow_same (r : list nat) : resizeRow (length r) r = r.
Proof.
  apply list_eq. intros i. rewrite resizeRow_lookup.
  destruct (Nat.ltb_spec i (length r)) as [Hlt|Hge].
  - destruct (lookup_lt_is_Some_2 r i Hlt) as [c ->]. done.
  - by rewrite lookup_ge_None_2.
Qed.

(** X13.  Shrinking in two steps is shrinking in one: a resize to [n] then
    to [m ≤ n] leaves the grid that a resize to [m] leaves.  And a resize to
    the step count the rows already have leaves the grid as it is. *)
Theorem resize_compose (n m : nat) (s : state) :
  m ≤ n →
  gridData (adjustGridSize m (adjustGridSize n s)) = gridData (adjustGridSize m s) ∧
  (Forall (λ cells, length cells = n) (gridData s) →
     gridData (adjustGridSize n s) = gridData s).
Proof.
  intros Hmn. rewrite !adjustGridSize_gridData. split.
  - rewrite <- list_fmap_compose. apply list_fmap_ext.
    intros _ r _. simpl. by apply resizeRow_resizeRow.
  - intros Hrows. rewrite <- (list_fmap_id (gridData s)) at 2.
    apply Forall_fmap_ext_1. eapply Forall_impl; [done|].
    intros r <-. apply resizeRow_same.
Qed.

Lemma resize_compose_witness :
  gridData (adjustGridSize 3 (adjustGridSize 5 demoSong))
  = gridData (adjustGridSize 3 demoSong) ∧
  (Forall (λ cells, length cells = 5) (gridData demoSong) →
     gridData (adjustGridSize 5 demoSong) = gridData demoSong).
Proof. apply (resize_compose 5 3 demoSong). lia. Defined.

(** X14.  A step-count change reaches the song: while a pattern is active
    and the grid has a row, an accepted change to [z] steps makes every
    block of that pattern play [z] ticks from then on. *)
Theorem stepsChange_sets_active_length (value : string) (z : Z) (n : string)
    (bar : nat) (s : state) :
  activeName s = Some n → gridData s ≠ [] →
  parseInt value = Int z → (1 ≤ z ≤ 64)%Z →
  patternLengthOf (patternLibrary (stepsChange value s)) (Block n bar) = Z.to_nat z.
Proof.
  intros Hn Hg Hv Hz. rewrite (stepsChange_accepted value z) by done.
  unfold adjustGridSize. set (s1 := set_gridData _ _).
  assert (activeName s1 = Some n) as Hs1 by done. rewrite Hs1.
  destruct (saveCurrentToLibrary_get s1 n Hs1) as (Hget & _).
  unfold patternLengthOf. simpl blockName. rewrite Hget. simpl.
  destruct (gridData s) as [|r0 g]; [done|]. simpl. apply resizeRow_length.
Qed.

Lemma stepsChange_sets_active_length_witness :
  patternLengthOf (patternLibrary (stepsChange "12" demoSong)) (Block "B" 10)
  = Z.to_nat 12.
Proof.
  apply (stepsChange_sets_active_length "12" 12 "B" 10 demoSong).
  - reflexivity.
  - vm_compute. discriminate.
  - reflexivity.
  - lia.
Defined.

(** ** Save and load *)

(** Tracks are only ever appended. *)
Lemma step_kit (s s' : state) :
  step s s' → ∃ extra, drumKit s' = (drumKit s ++ extra)%list.
Proof.
  intros Hstep.
  assert (∀ t, drumKit t = drumKit s → ∃ extra, drumKit t = (drumKit s ++ extra)%list)
    as Hsame by (intros t ->; exists []; by rewrite app_nil_r).
  destruct Hstep as [answer s|value s|r c s s' Ht|s|field s|n s|bar field s|bar s
                    |s|s|s|s|s s' Hp].
  - unfold addPiece. destruct answer as [[|? ?]|]; try by apply Hsame.
    destruct (list_find _ _) as [[? ?]|]; [|by apply Hsame]. by eexists.
  - apply Hsame. unfold stepsChange. destruct (parseInt value) as [|z]; [done|].
    destruct (_ && _); [|done]. unfold adjustGridSize.
    set (s1 := set_gridData _ _). destruct (activeName s1); [|done].
    by destruct (saveCurrentToLibrary_frame s1) as (-> & _).
  - apply Hsame. unfold toggle in Ht. destruct (_ || _); [by simplify_eq|].
    destruct (gridData s !! r) as [cells|]; [|done].
    destruct (cells !! c) as [v|]; [|done]. injection Ht as <-.
    by destruct (saveCurrentToLibrary_frame (set_gridData
         (<[r:=<[c:=if v =? 1 then 0 else 1]> cells]> (gridData s)) s)) as (-> & _).
  - apply Hsame. unfold clear.
    by destruct (saveCurrentToLibrary_frame (resetGridData s)) as (-> & _).
  - apply Hsame. unfold saveAs. by destruct (decide _).
  - apply Hsame. unfold loadPattern. by destruct (own _ !! n).
  - apply Hsame. unfold place. by destruct (truthy _).
  - by apply Hsame.
  - apply Hsame. unfold playButton. by destruct (transport s).
  - by apply Hsame.
  - by apply Hsame.
  - by apply Hsame.
  - apply Hsame. unfold pulse in Hp. destruct (transport s); [|by simplify_eq].
    destruct (tick s) as [[s1 notes]| |] eqn:Ht; simplify_eq.
    by destruct (tick_frame _ _ _ Ht) as (-> & _).
Qed.

Lemma steps_away (k : string) (m : list (list nat)) (s s' : state) :
  rtc (step_away k) s s' → entry (patternLibrary s) k = Some m →
  entry (patternLibrary s') k = Some m ∧
  ∃ extra, drumKit s' = (drumKit s ++ extra)%list.
Proof.
  induction 1 as [s|s1 s2 s3 [Hstep Haway] _ IH]; intros Hk.
  - split; [done|]. exists []. by rewrite app_nil_r.
  - destruct (entry_step _ _ _ _ Hstep Hk) as (m' & Hk' & [->|Hact]); [|done].
    destruct (IH Hk') as (Hk3 & extra3 & Hkit3).
    destruct (step_kit _ _ Hstep) as (extra2 & Hkit2).
    split; [done|]. exists (extra2 ++ extra3)%list.
    by rewrite Hkit3, Hkit2, app_assoc.
Qed.

(** The merge of [loadPattern] when the stored rows are no more than the
    tracks. *)
Lemma load_merge (saved : list (list nat)) (kit : list drum) (steps : nat) :
  length saved ≤ length kit →
  imap (λ index _, match saved !! index with
                   | Some r => (λ c : nat, c) <$> r
                   | None => zeroRow steps
                   end) kit
  = (saved ++ replicate (length kit - length saved) (zeroRow steps))%list.
Proof.
  intros Hlen. apply list_eq. intros i. rewrite list_lookup_imap.
  destruct (Nat.lt_ge_cases i (length saved)) as [Hi|Hi].
  - destruct (lookup_lt_is_Some_2 kit i) as [d ->]; [lia|].
    destruct (lookup_lt_is_Some_2 saved i Hi) as [r Hr]. simpl.
    by rewrite lookup_app_l, Hr, list_fmap_id.
  - rewrite lookup_app_r by done. rewrite (lookup_ge_None_2 saved) by done.
    destruct (Nat.lt_ge_cases i (length kit)) as [Hk|Hk].
    + destruct (lookup_lt_is_Some_2 kit i Hk) as [d ->]. simpl.
      by rewrite lookup_replicate_2 by lia.
    + rewrite (lookup_ge_None_2 kit) by done. simpl. symmetry.
      apply lookup_replicate_None. lia.
Qed.

(** X15.  Save As, then Load, gives back what was saved.  From a state with
    an aligned grid, save under a name; whatever gestures and ticks follow,
    as long as each leaves another pattern (or none) active, loading that
    name restores the saved grid and its step count, with a row of zeros
    for each track added in between. *)
Theorem load_restores_saved (field : string) (s0 s : state) :
  wf s0 → blank field = false → trim field ≠ "__proto__" →
  rtc (step_away (trim field)) (snd (saveAs field s0)) s →
  gridData (loadPattern (trim field) s)
  = (gridData s0
     ++ replicate (length (drumKit s) - length (drumKit s0)) (zeroRow (currentSteps s0)))%list ∧
  currentSteps (loadPattern (trim field) s) = currentSteps s0 ∧
  currentActivePattern (loadPattern (trim field) s) = Some (trim field).
Proof.
  intros Hwf Hb Hp Hrtc.
  assert (entry (patternLibrary (snd (saveAs field s0))) (trim field)
          = Some (gridData s0)) as Hk.
  { unfold saveAs. rewrite decide_False; [|by rewrite trim_empty, Hb].
    simpl. rewrite entry_lib_set, deepCopy_id. by rewrite decide_True. }
  destruct (steps_away _ _ _ _ Hrtc Hk) as (Hk' & extra & Hkit).
  assert (drumKit (snd (saveAs field s0)) = drumKit s0) as Hkit0
    by (unfold saveAs; by destruct (decide _)).
  rewrite Hkit0 in Hkit.
  unfold entry in Hk'. rewrite decide_False in Hk' by done.
  unfold loadPattern. rewrite Hk'. simpl.
  pose proof (wf_rows _ Hwf) as Hrows. pose proof (wf_kit _ Hwf) as Hk8.
  pose proof (wf_cols _ Hwf) as Hcols.
  destruct (gridData s0) as [|r0 g]; [simpl in Hrows; lia|]. simpl.
  assert (length r0 = currentSteps s0) as -> by by apply Forall_cons in Hcols as [? _].
  split; [|done].
  rewrite load_merge by (rewrite Hrows, Hkit, length_app; lia).
  by rewrite Hrows.
Qed.

Lemma load_restores_saved_witness :
  let s0 := set_gridData (<[0 := <[0 := 1]> (zeroRow 16)]> (gridData initialState))
              initialState in
  let s := snd (addPiece (Some "Cowbell")
             (clear (snd (saveAs "Outro" (snd (saveAs "Intro" s0)))))) in
  gridData (loadPattern (trim "Intro") s)
  = (gridData s0
     ++ replicate (length (drumKit s) - length (drumKit s0)) (zeroRow (currentSteps s0)))%list ∧
  currentSteps (loadPattern (trim "Intro") s) = currentSteps s0 ∧
  currentActivePattern (loadPattern (trim "Intro") s) = Some (trim "Intro").
Proof.
  apply (load_restores_saved "Intro").
  - apply wf_set_gridData; [apply wf_initialState|reflexivity|].
    vm_compute. repeat constructor.
  - reflexivity.
  - discriminate.
  - eapply rtc_l; [split; [apply (step_saveAs "Outro")|vm_compute; discriminate]|].
    eapply rtc_l; [split; [apply step_clear|vm_compute; discriminate]|].
    eapply rtc_l; [split; [apply (step_addPiece (Some "Cowbell"))|vm_compute; discriminate]|].
    apply rtc_refl.
Defined.

(** ** From the grid to the sampler *)

(** X16.  What is drawn is what is heard.  From a stopped state with an
    aligned grid, an empty timeline and the counter at [t], inside the
    pattern: save the grid, place it on any bar and press Play; the first
    tick then triggers exactly the notes of the tracks whose cell [t] is 1
    in the grid. *)
Theorem saved_pattern_plays (field : string) (bar t : nat) (s : state) :
  wf s → blank field = false → songTimeline s = [] → transport s = Stopped →
  globalStep s = t → t < currentSteps s →
  ∃ s' notes,
    tick (playButton (snd (place bar field (snd (saveAs field s))))) = Normal (s', notes) ∧
    globalStep s' = S t ∧ transport s' = Started ∧
    ∀ n, n ∈ notes ↔
      ∃ r d cells, drumKit s !! r = Some d ∧ gridData s !! r = Some cells ∧
        cells !! t = Some 1 ∧ note d = n.
Proof.
  intros Hwf Hb Hempty Hstop Ht Hlt.
  pose proof (wf_rows _ Hwf) as Hrows. pose proof (wf_kit _ Hwf) as Hk8.
  pose proof (wf_cols _ Hwf) as Hcols.
  unfold saveAs. rewrite decide_False; [|by rewrite trim_empty, Hb].
  unfold place. simpl. rewrite lib_get_set_eq. simpl.
  rewrite Hempty, deepCopy_id. simpl.
  unfold playButton. simpl. rewrite Hstop.
  set (b := Block (trim field) bar). set (s3 := set_transport _ _).
  assert (lib_get (patternLibrary s3) (blockName b) = JMatrix (gridData s)) as Hget
    by apply lib_get_set_eq.
  destruct (gridData s) as [|r0 g] eqn:Hg; [simpl in Hrows; lia|].
  assert (length r0 = currentSteps s) as Hr0 by by apply Forall_cons in Hcols as [? _].
  destruct (tick_in_window s3 [] [] b) as (pattern & Hpat & Htick).
  - done.
  - repeat constructor. by exists r0, g.
  - unfold totalSteps, patternLengthOf. rewrite Hget. simpl. lia.
  - rewrite Hget in Hpat. injection Hpat as <-.
    rewrite Htick. eexists _, _. split; [done|]. simpl.
    split; [by rewrite Ht|]. split; [done|].
    intros n. unfold totalSteps. simpl. rewrite Ht, Nat.sub_0_r.
    apply triggers_elem.
Qed.

Lemma saved_pattern_plays_witness :
  let s := set_gridData (<[1 := <[0 := 1]> (zeroRow 16)]> (gridData initialState))
             initialState in
  ∃ s' notes,
    tick (playButton (snd (place 7 "Fill" (snd (saveAs "Fill" s))))) = Normal (s', notes) ∧
    globalStep s' = S 0 ∧ transport s' = Started ∧
    ∀ n, n ∈ notes ↔
      ∃ r d cells, drumKit s !! r = Some d ∧ gridData s !! r = Some cells ∧
        cells !! 0 = Some 1 ∧ note d = n.
Proof.
  apply (saved_pattern_plays "Fill" 7 0).
  - apply wf_set_gridData; [apply wf_initialState|reflexivity|].
    vm_compute. repeat constructor.
  - reflexivity.
  - reflexivity.
  - reflexivity.
  - reflexivity.
  - vm_compute. lia.
Defined.

(** ** Export *)

Lemma lastBar_from (a : nat) (l : list block) :
  foldl (λ max b, Nat.max max (startBar b)) a l = Nat.max a (lastBar l).
Proof.
  unfold lastBar. revert a. induction l as [|b l IH]; intros a; simpl.
  - lia.
  - rewrite IH, (IH (startBar b)). lia.
Qed.

Lemma lastBar_cons (b : block) (l : list block) :
  lastBar (b :: l) = Nat.max (startBar b) (lastBar l).
Proof. unfold lastBar at 1. simpl. apply lastBar_from. Qed.

Lemma lastBar_perm (l1 l2 : list block) : l1 ≡ₚ l2 → lastBar l1 = lastBar l2.
Proof.
  induction 1 as [|b l1 l2 _ IH|b c l|l1 l2 l3 _ IH1 _ IH2].
  - done.
  - by rewrite !lastBar_cons, IH.
  - rewrite !lastBar_cons. lia.
  - congruence.
Qed.

(** X17.  The bar count of the export is the largest bar that holds a
    block, whatever the order of the blocks (a tick may have sorted them)
    and 0 for an empty timeline. *)
Theorem lastBar_spec (l : list block) :
  (∀ b, b ∈ l → startBar b ≤ lastBar l) ∧
  (l ≠ [] → ∃ b, b ∈ l ∧ startBar b = lastBar l) ∧
  (l = [] → lastBar l = 0) ∧
  lastBar (sortTimeline l) = lastBar l.
Proof.
  split; [|split; [|split]].
  - induction l as [|c l IH]; intros b Hb; [by apply elem_of_nil in Hb|].
    rewrite lastBar_cons. apply elem_of_cons in Hb as [->|Hb]; [lia|].
    specialize (IH b Hb). lia.
  - induction l as [|c l IH]; [done|]. intros _. rewrite lastBar_cons.
    destruct (Nat.max_spec (startBar c) (lastBar l)) as [[Hlt ->]|[Hge ->]].
    + destruct l as [|d l]; [unfold lastBar in Hlt; simpl in Hlt; lia|].
      destruct IH as (b & Hb & Heq); [done|].
      exists b. split; [|done]. apply elem_of_cons. by right.
    + exists c. split; [|done]. apply elem_of_cons. by left.
  - by intros ->.
  - apply lastBar_perm, sortTimeline_perm.
Qed.

Lemma lastBar_spec_witness :
  (∀ b, b ∈ songTimeline demoSong → startBar b ≤ lastBar (songTimeline demoSong)) ∧
  (songTimeline demoSong ≠ [] →
     ∃ b, b ∈ songTimeline demoSong ∧ startBar b = lastBar (songTimeline demoSong)) ∧
  (songTimeline demoSong = [] → lastBar (songTimeline demoSong) = 0) ∧
  lastBar (sortTimeline (songTimeline demoSong)) = lastBar (songTimeline demoSong).
Proof. apply (lastBar_spec (songTimeline demoSong)). Defined.

(** ** Clear, new tracks and the active pattern *)

Lemma triggers_silent (kit : list drum) (rows steps t : nat) :
  triggers kit (replicate rows (zeroRow steps)) t = [].
Proof.
  apply elem_of_nil_inv. intros n Hn.
  apply triggers_elem in Hn as (r & d & cells & _ & Hr & Hc & _).
  apply lookup_replicate in Hr as [-> _].
  by apply lookup_replicate in Hc as [? _].
Qed.

(** X18.  Clear is destructive for the active pattern: its stored copy
    becomes the all-zero grid as well, so every block of that name is
    silent at every step from then on. *)
Theorem clear_silences_active (n : string) (s : state) :
  activeName s = Some n →
  lib_get (patternLibrary (clear s)) n
  = JMatrix (replicate (length (drumKit s)) (zeroRow (currentSteps s))) ∧
  ∀ kit t, triggers kit (replicate (length (drumKit s)) (zeroRow (currentSteps s))) t = [].
Proof.
  intros Hn. split; [|intros kit t; apply triggers_silent].
  unfold clear.
  assert (activeName (resetGridData s) = Some n) as Hs1 by done.
  by destruct (saveCurrentToLibrary_get _ n Hs1) as (-> & _).
Qed.

Lemma clear_silences_active_witness :
  lib_get (patternLibrary (clear demoSong)) "B"
  = JMatrix (replicate (length (drumKit demoSong)) (zeroRow (currentSteps demoSong))) ∧
  ∀ kit t, triggers kit (replicate (length (drumKit demoSong))
                           (zeroRow (currentSteps demoSong))) t = [].
Proof. apply (clear_silences_active "B" demoSong). reflexivity. Defined.

(** X19.  A successful addition appends: the tracks and rows there were stay
    in place, the new track gets the first note of the pool that no track
    uses, the new row is all zeros at the current step count, and the
    library is not touched. *)
Theorem addPiece_appends (answer : option string) (s s' : state) :
  addPiece answer s = (Ok, s') →
  ∃ label i nextNote,
    answer = Some label ∧ label ≠ "" ∧
    NOTE_POOL !! i = Some nextNote ∧ (nextNote ∉ note <$> drumKit s) ∧
    (∀ j earlier, j < i → NOTE_POOL !! j = Some earlier → earlier ∈ note <$> drumKit s) ∧
    drumKit s' = (drumKit s ++ [Drum label nextNote "#ffffff"])%list ∧
    gridData s' = (gridData s ++ [zeroRow (currentSteps s)])%list ∧
    patternLibrary s' = patternLibrary s ∧ currentSteps s' = currentSteps s.
Proof.
  unfold addPiece. destruct answer as [label|]; [|done].
  destruct label as [|c l] eqn:Hl; [done|]. rewrite <- Hl.
  destruct (list_find _ _) as [[i nt]|] eqn:Hfind; [|done].
  intros [= <-]. apply list_find_Some in Hfind as (Hi & Hnew & Hbefore).
  exists label, i, nt. repeat split; try done.
  - by rewrite Hl.
  - intros j earlier Hj Hearlier.
    destruct (decide (earlier ∈ note <$> drumKit s)) as [|Hout]; [done|].
    by destruct (Hbefore j earlier Hearlier Hj).
Qed.

Lemma addPiece_appends_witness :
  ∃ label i nextNote,
    Some "Cowbell" = Some label ∧ label ≠ "" ∧
    NOTE_POOL !! i = Some nextNote ∧ (nextNote ∉ note <$> drumKit demoSong) ∧
    (∀ j earlier, j < i → NOTE_POOL !! j = Some earlier →
       earlier ∈ note <$> drumKit demoSong) ∧
    drumKit (snd (addPiece (Some "Cowbell") demoSong))
    = (drumKit demoSong ++ [Drum label nextNote "#ffffff"])%list ∧
    gridData (snd (addPiece (Some "Cowbell") demoSong))
    = (gridData demoSong ++ [zeroRow (currentSteps demoSong)])%list ∧
    patternLibrary (snd (addPiece (Some "Cowbell") demoSong)) = patternLibrary demoSong ∧
    currentSteps (snd (addPiece (Some "Cowbell") demoSong)) = currentSteps demoSong.
Proof.
  apply (addPiece_appends (Some "Cowbell") demoSong).
  vm_compute. reflexivity.
Defined.

(** X20.  Live editing cannot be left: once a pattern is active in a
    reachable state, after every gesture and every tick some pattern is
    still active (so every later edit of the grid overwrites a stored
    pattern). *)
Theorem active_pattern_stays (s s' : state) :
  reachable s → step s s' → is_Some (activeName s) → is_Some (activeName s').
Proof.
  intros Hs Hstep Hact. destruct (reachable_inv s Hs) as [_ Hinv].
  assert (∀ t, currentActivePattern t = currentActivePattern s → is_Some (activeName t))
    as Hsame by (intros t Ht; unfold activeName in *; by rewrite Ht).
  destruct Hstep as [answer s|value s|r c s s' Ht|s|field s|n s|bar field s|bar s
                    |s|s|s|s|s s' Hp].
  - apply Hsame. unfold addPiece. destruct answer as [[|? ?]|]; try done.
    by destruct (list_find _ _) as [[? ?]|].
  - apply Hsame. unfold stepsChange. destruct (parseInt value) as [|z]; [done|].
    destruct (_ && _); [|done]. unfold adjustGridSize.
    set (s1 := set_gridData _ _). destruct (activeName s1); [|done].
    by destruct (saveCurrentToLibrary_frame s1) as (_ & _ & _ & ->).
  - apply Hsame. unfold toggle in Ht. destruct (_ || _); [by simplify_eq|].
    destruct (gridData s !! r) as [cells|]; [|done].
    destruct (cells !! c) as [v|]; [|done]. injection Ht as <-.
    by destruct (saveCurrentToLibrary_frame (set_gridData
         (<[r:=<[c:=if v =? 1 then 0 else 1]> cells]> (gridData s)) s)) as (_ & _ & _ & ->).
  - apply Hsame. unfold clear.
    by destruct (saveCurrentToLibrary_frame (resetGridData s)) as (_ & _ & _ & ->).
  - unfold saveAs. destruct (decide (trim field = "")) as [|Hne]; [by apply Hsame|].
    unfold activeName. simpl. by destruct (trim field).
  - unfold loadPattern. destruct (own _ !! n) eqn:Hn; [|by apply Hsame].
    unfold activeName. simpl. destruct n; [|by eexists].
    by rewrite (inv_names _ Hinv) in Hn.
  - apply Hsame. unfold place. by destruct (truthy _).
  - by apply Hsame.
  - apply Hsame. unfold playButton. by destruct (transport s).
  - by apply Hsame.
  - by apply Hsame.
  - by apply Hsame.
  - apply Hsame. unfold pulse in Hp. destruct (transport s); [|by simplify_eq].
    destruct (tick s) as [[s1 notes]| |] eqn:Ht; simplify_eq.
    by destruct (tick_frame _ _ _ Ht) as (_ & _ & _ & _ & -> & _).
Qed.

Lemma active_pattern_stays_witness :
  is_Some (activeName (snd (addPiece (Some "Cowbell") demoSong))).
Proof.
  apply (active_pattern_stays demoSong).
  - unfold reachable, demoSong. do 6 (eapply rtc_r; [|constructor]). apply rtc_refl.
  - apply step_addPiece.
  - by eexists.
Defined.

(** ** Bars and time *)

(** X21.  Bars order the blocks and nothing more: two timelines that list
    the same pattern names in the same order resolve every tick alike (same
    pattern, same local step, same accumulated steps, same failure),
    whatever bars the blocks sit on. *)
Theorem bars_do_not_matter (lib : library) (t : nat) (l1 l2 : list block)
    (acc : option nat) :
  blockName <$> l1 = blockName <$> l2 →
  same_resolution (findBlock lib t l1 acc) (findBlock lib t l2 acc).
Proof.
  revert l2 acc. induction l1 as [|b1 l1 IH]; intros [|b2 l2] acc Hnames;
    try discriminate Hnames.
  - done.
  - injection Hnames as Hb Hrest. simpl. rewrite <- Hb.
    destruct (lib_get lib (blockName b1)) as [|[|r0 m]|[|? ?]|[|n]|];
      simpl; try done; try by apply IH.
    destruct acc as [a|]; [|by apply IH].
    destruct (_ && _); [done|by apply IH].
Qed.

Lemma bars_do_not_matter_witness :
  same_resolution
    (findBlock (patternLibrary demoSong) 6 [Block "A" 0; Block "B" 10] (Some 0))
    (findBlock (patternLibrary demoSong) 6 [Block "A" 3; Block "B" 4] (Some 0)).
Proof.
  apply (bars_do_not_matter (patternLibrary demoSong) 6
           [Block "A" 0; Block "B" 10] [Block "A" 3; Block "B" 4] (Some 0)).
  reflexivity.
Defined.
